(** * JUDIGeosym, python sources: a shallow embedding and its properties

    The development follows the three python modules of [src/pysource]:
    - [Utils]      for [utils.py]      (step length, stiffness matrices,
                                        Voigt reshapes, source focusing weight);
    - [GeomUtils]  for [geom_utils.py] (source injection, receiver sampling);
    - [Interface]  for [interface.py]  (the adjoint Jacobian dispatcher).

    Python exceptions are values of [exn]; a call that may raise returns a
    [result].  Symbolic fields of the physical model ([vp], [vs], [irho], ...)
    are read through a valuation: the rational value each of them takes at a
    grid point.  A symbolic identity between rational expressions of these
    fields holds at every valuation at which the denominators do not vanish. *)

From Stdlib Require Import List String Ascii Bool Arith ZArith Lia.
From Stdlib Require Import QArith Qround Qfield Qreals DecimalString.
From Stdlib Require Import Reals Lra.
Import ListNotations.

Set Implicit Arguments.
Set Warnings "-register-all".

(** ** Python exceptions and results *)

Inductive exn : Type :=
| Exception_          (* a bare [raise Exception] / [raise Exception(msg)] *)
| TypeError
| ValueError
| AttributeError
| IndexError
| KeyError
| ZeroDivisionError.

Inductive result (A : Type) : Type :=
| Ok (a : A)
| Raise (e : exn).

Arguments Ok {A} a.
Arguments Raise {A} e.

Definition rbind {A B : Type} (r : result A) (k : A -> result B) : result B :=
  match r with
  | Ok a => k a
  | Raise e => Raise e
  end.

Declare Scope result_scope.
Delimit Scope result_scope with result.
Notation "x <- r ;; k" := (rbind r (fun x => k))
  (at level 61, r at next level, right associativity) : result_scope.

Fixpoint rmap {A B : Type} (f : A -> result B) (l : list A) : result (list B) :=
  match l with
  | [] => Ok []
  | a :: l' =>
      rbind (f a) (fun b => rbind (rmap f l') (fun bs => Ok (b :: bs)))
  end.

(** Calls with effects: the state is threaded, an exception stops the call
    and keeps the state reached. *)
Definition StateErr (S A : Type) : Type := S -> S * result A.

Definition ret {S A : Type} (a : A) : StateErr S A := fun s => (s, Ok a).

Definition raise {S A : Type} (e : exn) : StateErr S A := fun s => (s, Raise e).

Definition lift {S A : Type} (r : result A) : StateErr S A := fun s => (s, r).

Definition bind {S A B : Type} (m : StateErr S A) (k : A -> StateErr S B)
  : StateErr S B :=
  fun s =>
    match m s with
    | (s', Ok a) => k a s'
    | (s', Raise e) => (s', Raise e)
    end.

Declare Scope py_scope.
Delimit Scope py_scope with py.
Notation "x <-- m ;; k" := (bind m (fun x => k))
  (at level 61, m at next level, right associativity) : py_scope.
Notation "m ;;; k" := (bind m (fun _ => k))
  (at level 61, right associativity) : py_scope.

(** [range(a, b)] *)
Definition range (a b : nat) : list nat := seq a (b - a).

(** [seq[i]] for a non-negative index. *)
Definition getitem {A : Type} (l : list A) (i : nat) : result A :=
  match nth_error l i with
  | Some a => Ok a
  | None => Raise IndexError
  end.

(** [seq[-1]] *)
Definition getlast {A : Type} (l : list A) : result A :=
  match rev l with
  | a :: _ => Ok a
  | [] => Raise IndexError
  end.

(** ** utils.py *)

Module Utils.

(** *** compute_optalpha *)

(** [a > b] on numbers. *)
Definition Qgtb (a b : Q) : bool := negb (Qle_bool a b).

Definition compute_optalpha (norm_r norm_Fty epsilon : Q) (comp_alpha : bool) : Q :=
  if comp_alpha then
    if Qgtb norm_r epsilon && Qgtb norm_Fty 0 then
      norm_r * (norm_r - epsilon) / norm_Fty
    else 0
  else 1.

(** *** C_Matrix *)

(** The attributes of the physical model that the stiffness factory reads. *)
Record Model : Type := {
  dim : nat;
  vp : Q; vs : Q; irho : Q;
  lam : Q; mu : Q;
  Ip : Q; Is : Q
}.

(** An entry of a symbolic matrix: a free symbol [Cij] or a value. *)
Inductive entry : Type :=
| Sym (name : string)
| Num (q : Q).

Definition Matrix : Type := list (list entry).

(** ['%s' % n] for a natural number. *)
Definition pct_s (n : nat) : string := NilEmpty.string_of_uint (Nat.to_uint n).

(** [symbols('C%s%s' % (ii, jj))] *)
Definition symbols_C (ii jj : nat) : entry :=
  Sym ("C" ++ pct_s ii ++ pct_s jj).

Definition cij (dim i j : nat) : entry :=
  let ii := Nat.min i j in
  let jj := Nat.max i j in
  if (ii =? jj)%nat || ((ii <=? dim)%nat && (jj <=? dim)%nat)
  then symbols_C ii jj
  else Num 0.

Definition _matrix_init (dim : nat) : Matrix :=
  let d := (dim * 2 + dim - 2)%nat in
  map (fun j => map (fun i => cij dim i j) (range 1 d)) (range 1 d).

(** A substitution dictionary, keyed by symbol name. *)
Definition dict : Type := list (string * Q).

Fixpoint dict_get (d : dict) (k : string) : option Q :=
  match d with
  | [] => None
  | (k', v) :: d' => if String.eqb k k' then Some v else dict_get d' k
  end.

Definition subs_entry (d : dict) (e : entry) : entry :=
  match e with
  | Sym s => match dict_get d s with
             | Some v => Num v
             | None => Sym s
             end
  | Num q => Num q
  end.

(** [matrix.subs(d)] *)
Definition subs (m : Matrix) (d : dict) : Matrix :=
  map (map (subs_entry d)) m.

(** A stiffness matrix with the matrices attached to it as attributes
    ([M.inv = ...], [M.dvp = ...]). *)
Record StiffnessTensor : Type := {
  mat : Matrix;
  attrs : list (string * Matrix)
}.

Fixpoint getattr (a : list (string * Matrix)) (k : string) : result Matrix :=
  match a with
  | [] => Raise AttributeError
  | (k', v) :: a' => if String.eqb k k' then Ok v else getattr a' k
  end.

Definition _generate_Dlam (model : Model) : Matrix :=
  let d_lam i j :=
    let ii := Nat.min i j in
    let jj := Nat.max i j in
    if (ii <=? dim model)%nat && (jj <=? dim model)%nat then Num 1 else Num 0 in
  let d := (dim model * 2 + dim model - 2)%nat in
  map (fun j => map (fun i => d_lam i j) (range 1 d)) (range 1 d).

Definition _generate_Dmu (model : Model) : Matrix :=
  let d_mu i j :=
    let ii := Nat.min i j in
    let jj := Nat.max i j in
    if (ii =? jj)%nat then
      if (ii <=? dim model)%nat then Num 2 else Num 1
    else Num 0 in
  let d := (dim model * 2 + dim model - 2)%nat in
  map (fun j => map (fun i => d_mu i j) (range 1 d)) (range 1 d).

Definition _inverse_C_lam (model : Model) : Matrix :=
  let matrix := _matrix_init (dim model) in
  let lmbda := lam model in
  let mu := mu model in
  let subs3D : dict :=
    [("C11", (lmbda + mu) / (3*lmbda*mu + 2*mu*mu));
     ("C22", (lmbda + mu) / (3*lmbda*mu + 2*mu*mu));
     ("C33", (lmbda + mu) / (3*lmbda*mu + 2*mu*mu));
     ("C44", 1/mu);
     ("C55", 1/mu);
     ("C66", 1/mu);
     ("C12", -lmbda / (6*lmbda*mu + 4*mu*mu));
     ("C13", -lmbda / (6*lmbda*mu + 4*mu*mu));
     ("C23", -lmbda / (6*lmbda*mu + 4*mu*mu))]%string in
  let subs2D : dict :=
    [("C11", (lmbda + mu) / (3*lmbda*mu + 2*mu*mu));
     ("C22", (lmbda + mu) / (3*lmbda*mu + 2*mu*mu));
     ("C33", 1/mu);
     ("C12", -lmbda / (6*lmbda*mu + 4*mu*mu))]%string in
  subs matrix (if (dim model =? 3)%nat then subs3D else subs2D).

Definition C_lambda_mu (model : Model) : StiffnessTensor :=
  let matriz := _matrix_init (dim model) in
  let lmbda := lam model in
  let mu := mu model in
  let subs3D : dict :=
    [("C11", lmbda + 2*mu);
     ("C22", lmbda + 2*mu);
     ("C33", lmbda + 2*mu);
     ("C44", mu);
     ("C55", mu);
     ("C66", mu);
     ("C12", lmbda);
     ("C13", lmbda);
     ("C23", lmbda)]%string in
  let subs2D : dict :=
    [("C11", lmbda + 2*mu);
     ("C22", lmbda + 2*mu);
     ("C33", mu);
     ("C12", lmbda)]%string in
  let M := subs matriz (if (dim model =? 3)%nat then subs3D else subs2D) in
  {| mat := M;
     attrs := [("inv", _inverse_C_lam model);
               ("dmu", _generate_Dmu model);
               ("dlam", _generate_Dlam model)]%string |}.

Definition _generate_Dvp (model : Model) : Matrix :=
  let d_vp i j :=
    let ii := Nat.min i j in
    let jj := Nat.max i j in
    if (ii <=? dim model)%nat && (jj <=? dim model)%nat
    then Num (2 * (1 / irho model) * vp model)
    else Num 0 in
  let d := (dim model * 2 + dim model - 2)%nat in
  map (fun j => map (fun i => d_vp i j) (range 1 d)) (range 1 d).

Definition _generate_Dvs (model : Model) : Matrix :=
  let Dvs := _matrix_init (dim model) in
  let rho := 1 / irho model in
  let vs := vs model in
  let subs3D : dict :=
    [("C11", 0); ("C22", 0); ("C33", 0);
     ("C44", 2*rho*vs); ("C55", 2*rho*vs); ("C66", 2*rho*vs);
     ("C12", -(4)*rho*vs); ("C13", -(4)*rho*vs); ("C23", -(4)*rho*vs)]%string in
  let subs2D : dict :=
    [("C11", 0); ("C22", 0);
     ("C33", 2*rho*vs);
     ("C12", -(4)*rho*vs)]%string in
  subs Dvs (if (dim model =? 3)%nat then subs3D else subs2D).

Definition _generate_Drho (model : Model) : Matrix :=
  let Dvs := _matrix_init (dim model) in
  let vp := vp model in
  let vs := vs model in
  let subs3D : dict :=
    [("C11", vp*vp); ("C22", vp*vp); ("C33", vp*vp);
     ("C44", vs*vs); ("C55", vs*vs); ("C66", vs*vs);
     ("C12", vp*vp - 2*vs*vs);
     ("C13", vp*vp - 2*vs*vs);
     ("C23", vp*vp - 2*vs*vs)]%string in
  let subs2D : dict :=
    [("C11", vp*vp); ("C22", vp*vp);
     ("C33", vs*vs);
     ("C12", vp*vp - 2*vs*vs)]%string in
  subs Dvs (if (dim model =? 3)%nat then subs3D else subs2D).

Definition _inverse_C_vp_vs (model : Model) : Matrix :=
  let matrix := _matrix_init (dim model) in
  let vp := vp model in
  let vs := vs model in
  let rho := 1 / irho model in
  let subs3D : dict :=
    [("C11", (vp*vp - vs*vs) / ((rho*vs*vs) * (3*vp*vp - 4*vs*vs)));
     ("C22", (vp*vp - vs*vs) / ((rho*vs*vs) * (3*vp*vp - 4*vs*vs)));
     ("C33", (vp*vp - vs*vs) / ((rho*vs*vs) * (3*vp*vp - 4*vs*vs)));
     ("C44", 1 / (rho*vs*vs));
     ("C55", 1 / (rho*vs*vs));
     ("C66", 1 / (rho*vs*vs));
     ("C12", (vp*vp - vs*vs) / ((rho*vs*vs) * (6*vp*vp - 8*vs*vs)));
     ("C13", (vp*vp - vs*vs) / ((rho*vs*vs) * (6*vp*vp - 8*vs*vs)));
     ("C23", (vp*vp - vs*vs) / ((rho*vs*vs) * (6*vp*vp - 8*vs*vs)))]%string in
  let subs2D : dict :=
    [("C11", (vp*vp - vs*vs) / ((rho*vs*vs) * (3*vp*vp - 4*vs*vs)));
     ("C22", (vp*vp - vs*vs) / ((rho*vs*vs) * (3*vp*vp - 4*vs*vs)));
     ("C33", 1 / (rho*vs*vs));
     ("C12", (vp*vp - vs*vs) / ((rho*vs*vs) * (6*vp*vp - 8*vs*vs)))]%string in
  subs matrix (if (dim model =? 3)%nat then subs3D else subs2D).

Definition C_vp_vs_rho (model : Model) : StiffnessTensor :=
  let matrix := _matrix_init (dim model) in
  let vp := vp model in
  let vs := vs model in
  let rho := 1 / irho model in
  let subs3D : dict :=
    [("C11", rho*vp*vp);
     ("C22", rho*vp*vp);
     ("C33", rho*vp*vp);
     ("C44", rho*vs*vs);
     ("C55", rho*vs*vs);
     ("C66", rho*vs*vs);
     ("C12", rho*vp*vp - 2*rho*vs*vs);
     ("C13", rho*vp*vp - 2*rho*vs*vs);
     ("C23", rho*vp*vp - 2*rho*vs*vs)]%string in
  let subs2D : dict :=
    [("C11", rho*vp*vp);
     ("C22", rho*vp*vp);
     ("C33", rho*vs*vs);
     ("C12", rho*vp*vp - 2*rho*vs*vs)]%string in
  let M := subs matrix (if (dim model =? 3)%nat then subs3D else subs2D) in
  {| mat := M;
     attrs := [("inv", _inverse_C_vp_vs model);
               ("drho", _generate_Drho model);
               ("dvs", _generate_Dvs model);
               ("dvp", _generate_Dvp model)]%string |}.

Definition _generate_DIp (model : Model) : Matrix :=
  let d_Is i j :=
    let ii := Nat.min i j in
    let jj := Nat.max i j in
    if (ii <=? dim model)%nat && (jj <=? dim model)%nat
    then Num (vp model)
    else Num 0 in
  let d := (dim model * 2 + dim model - 2)%nat in
  map (fun j => map (fun i => d_Is i j) (range 1 d)) (range 1 d).

Definition _generate_DIs (model : Model) : Matrix :=
  let D_Ip := _matrix_init (dim model) in
  let vs := vs model in
  let subs3D : dict :=
    [("C11", 0); ("C22", 0); ("C33", 0);
     ("C44", vs); ("C55", vs); ("C66", vs);
     ("C12", -(2)*vs); ("C13", -(2)*vs); ("C23", -(2)*vs)]%string in
  let subs2D : dict :=
    [("C11", 0); ("C22", 0);
     ("C33", vs);
     ("C12", -(2)*vs)]%string in
  subs D_Ip (if (dim model =? 3)%nat then subs3D else subs2D).

Definition C_Ip_Is_rho (model : Model) : StiffnessTensor :=
  let matrix := _matrix_init (dim model) in
  let vp := vp model in
  let vs := vs model in
  let Ip := Ip model in
  let Is := Is model in
  let subs3D : dict :=
    [("C11", Ip*vp); ("C22", Ip*vp); ("C33", Ip*vp);
     ("C44", Is*vs); ("C55", Is*vs); ("C66", Is*vs);
     ("C12", Ip*vp - 2*Is*vs);
     ("C13", Ip*vp - 2*Is*vs);
     ("C23", Ip*vp - 2*Is*vs)]%string in
  let subs2D : dict :=
    [("C11", Ip*vp); ("C22", Ip*vp);
     ("C33", Is*vs);
     ("C12", Ip*vp - 2*Is*vs)]%string in
  let M := subs matrix (if (dim model =? 3)%nat then subs3D else subs2D) in
  {| mat := M;
     attrs := [("dIp", _generate_DIp model);
               ("dIs", _generate_DIs model)]%string |}.

(** [C_Matrix(model, parameters)]: the dictionary [C_matrix_dependency]
    selects the generator; an unknown key raises. *)
Definition C_Matrix (model : Model) (parameters : string) : result StiffnessTensor :=
  if String.eqb parameters "lam-mu" then Ok (C_lambda_mu model)
  else if String.eqb parameters "vp-vs-rho" then Ok (C_vp_vs_rho model)
  else if String.eqb parameters "Ip-Is-rho" then Ok (C_Ip_Is_rho model)
  else Raise KeyError.

(** Numeric matrices and their product, to state what [inv] should satisfy. *)
Definition QMatrix : Type := list (list Q).

Definition entry_value (e : entry) : option Q :=
  match e with
  | Num q => Some q
  | Sym _ => None
  end.

Fixpoint all_some {A : Type} (l : list (option A)) : option (list A) :=
  match l with
  | [] => Some []
  | Some a :: l' => option_map (cons a) (all_some l')
  | None :: _ => None
  end.

(** The values of a matrix in which no free symbol is left. *)
Definition values (m : Matrix) : option QMatrix :=
  all_some (map (fun row => all_some (map entry_value row)) m).

Definition dot (r c : list Q) : Q :=
  fold_right Qplus 0 (map (fun p => fst p * snd p) (combine r c)).

Definition column (b : QMatrix) (j : nat) : list Q :=
  map (fun row => nth j row 0) b.

Definition mat_mul (a b : QMatrix) : QMatrix :=
  map (fun r => map (fun j => dot r (column b j)) (seq 0 (List.length (hd [] b)))) a.

Definition eye (n : nat) : QMatrix :=
  map (fun i => map (fun j => if (i =? j)%nat then 1 else 0) (seq 0 n)) (seq 0 n).

Fixpoint forallb2 {A : Type} (p : A -> A -> bool) (l1 l2 : list A) : bool :=
  match l1, l2 with
  | [], [] => true
  | a :: l1', b :: l2' => p a b && forallb2 p l1' l2'
  | _, _ => false
  end.

(** Entrywise equality of rational matrices. *)
Definition mat_eqb (a b : QMatrix) : bool :=
  forallb2 (forallb2 Qeq_bool) a b.

(** [M.inv * M], as rational matrices, for the stiffness tensor of a
    parameterization. *)
Definition inv_times (model : Model) (parameters : string) : result (option QMatrix) :=
  (M <- C_Matrix model parameters ;;
   Minv <- getattr (attrs M) "inv" ;;
   Ok (match values Minv, values (mat M) with
       | Some a, Some b => Some (mat_mul a b)
       | _, _ => None
       end))%result.

(** *** vec and tensor *)

Section Voigt.

(** The components of a tensor valued field are symbolic functions; [zero]
    is the entry [np.zeros] fills a fresh array with. *)
Variable A : Type.
Variable zero : A.

Record TensorField : Type := {
  is_TensorValued : bool;
  space_dimensions : list string;
  shape : nat * nat;
  flat : list A       (* the components, row after row *)
}.

(** [self[i, j]] *)
Definition getitem2 (self : TensorField) (i j : nat) : result A :=
  if (i <? fst (shape self))%nat && (j <? snd (shape self))%nat
  then getitem (flat self) (i * snd (shape self) + j)
  else Raise IndexError.

(** What devito's [tens_func(self)] builds from a list of components
    ([func(comp)]) or from an array ([func._new(M)]): a tensor valued field
    on the grid of [self] with the shape of its argument. *)
Definition tens_func (self : TensorField) (rows cols : nat) (comps : list A)
  : TensorField :=
  {| is_TensorValued := true;
     space_dimensions := space_dimensions self;
     shape := (rows, cols);
     flat := comps |}.

Definition vec (self : TensorField) : result TensorField :=
  if negb (is_TensorValued self) then Raise TypeError
  else if negb (fst (shape self) =? snd (shape self))%nat then Raise Exception_
  else
    let order :=
      if (List.length (space_dimensions self) =? 3)%nat
      then [(0, 0); (1, 1); (2, 2); (1, 2); (0, 2); (0, 1)]%nat
      else [(0, 0); (1, 1); (0, 1)]%nat in
    (comp <- rmap (fun o => getitem2 self (fst o) (snd o)) order ;;
     Ok (tens_func self (List.length comp) 1 comp))%result.

(** [np.zeros((n, n), dtype=object)], row after row. *)
Definition np_zeros (n : nat) : list A := repeat zero (n * n).

Fixpoint update (l : list A) (k : nat) (v : A) : list A :=
  match l, k with
  | [], _ => []
  | _ :: l', O => v :: l'
  | a :: l', S k' => a :: update l' k' v
  end.

(** [M[i, j] = v] on an [n] by [n] array. *)
Definition setitem2 (n : nat) (M : list A) (i j : nat) (v : A) : result (list A) :=
  if (i <? n)%nat && (j <? n)%nat then Ok (update M (i * n + j) v)
  else Raise IndexError.

Definition tensor (self : TensorField) : result TensorField :=
  if negb (is_TensorValued self) then Raise TypeError
  else if (fst (shape self) =? snd (shape self))%nat then Raise Exception_
  else
    let ndim := List.length (space_dimensions self) in
    let M := np_zeros ndim in
    (v <- getitem (flat self) 0 ;; M <- setitem2 ndim M 0 0 v ;;
     v <- getitem (flat self) 1 ;; M <- setitem2 ndim M 1 1 v ;;
     M <- (if (List.length (space_dimensions self) =? 3)%nat then
             v <- getitem (flat self) 2 ;; M <- setitem2 ndim M 2 2 v ;;
             v <- getitem (flat self) 3 ;; M <- setitem2 ndim M 2 1 v ;;
             v <- getitem (flat self) 3 ;; M <- setitem2 ndim M 1 2 v ;;
             v <- getitem (flat self) 4 ;; M <- setitem2 ndim M 2 0 v ;;
             v <- getitem (flat self) 4 ;; M <- setitem2 ndim M 0 2 v ;;
             Ok M
           else Ok M) ;;
     v <- getlast (flat self) ;; M <- setitem2 ndim M 1 0 v ;;
     v <- getlast (flat self) ;; M <- setitem2 ndim M 0 1 v ;;
     Ok (tens_func self ndim ndim M))%result.

End Voigt.

(** *** weight_fun and weight_srcfocus *)

(** A grid dimension symbol, by name. *)
Definition Dimension : Type := string.

(** The attributes of the physical model that the weights read.  Spacings,
    pad sizes and coordinates are numbers; floating point values are taken
    as the rationals they stand for. *)
Record GridModel : Type := {
  gdim : nat;                          (* model.dim *)
  grid_dimensions : list Dimension;    (* model.grid.dimensions *)
  spacing : list Q;                    (* model.spacing *)
  padsizes : list (Z * Z)              (* model.padsizes *)
}.

(** A symbolic expression in the grid dimensions, read as the function that
    sends the value of every dimension symbol to the value of the expression. *)
Definition Expr : Type := (Dimension -> R) -> R.

(** [as_tuple(model.grid.dimensions if full else model.grid.dimensions[-1])] *)
Definition w_dim_of (model : GridModel) (full : bool) : result (list Dimension) :=
  if full then Ok (grid_dimensions model)
  else (d <- getlast (grid_dimensions model) ;; Ok [d])%result.

(** [np.float32(model.padsizes[i][0]) + src_coords[0, i] / model.spacing[i]];
    a zero spacing has no quotient among the rationals and stops the call. *)
Definition isrc_at (model : GridModel) (src_coords : list (list Q)) (i : nat)
  : result Q :=
  (pad <- getitem (padsizes model) i ;;
   row <- getitem src_coords 0 ;;
   c <- getitem row i ;;
   sp <- getitem (spacing model) i ;;
   if Qeq_bool sp 0 then Raise ZeroDivisionError
   else Ok (inject_Z (fst pad) + c / sp))%result.

(** [np.prod(model.spacing)] *)
Definition np_prod (l : list Q) : Q := fold_right Qmult 1 l.

(** [sum((d - isrc[i])**2 for i, d in enumerate(w_dim))] *)
Fixpoint radius_from (isrc : list Q) (i : nat) (w_dim : list Dimension)
  : result Expr :=
  match w_dim with
  | [] => Ok (fun _ => 0%R)
  | d :: w_dim' =>
      (s <- getitem isrc i ;;
       rest <- radius_from isrc (S i) w_dim' ;;
       Ok (fun x : Dimension -> R => ((x d - Q2R s) ^ 2 + rest x)%R))%result
  end.

Definition weight_srcfocus (model : GridModel) (src_coords : list (list Q))
    (delta : Q) (full : bool) : result Expr :=
  (w_dim <- w_dim_of model full ;;
   isrc <- rmap (isrc_at model src_coords) (range 0 (gdim model)) ;;
   h <- (if (gdim model =? 0)%nat then Raise ZeroDivisionError
         else Ok (Rpower (Q2R (np_prod (spacing model))) (1 / INR (gdim model)))) ;;
   radius <- radius_from isrc 0 w_dim ;;
   Ok (fun x : Dimension -> R =>
         (sqrt (radius x + (Q2R delta / h) ^ 2) / (Q2R delta / h))%R))%result.

Definition weight_fun (w_fun : option (string * Q)) (model : GridModel)
    (src_coords : list (list Q)) : result Expr :=
  match w_fun with
  | None => Ok (fun _ => 1%R)
  | Some w =>
      weight_srcfocus model src_coords (snd w) (String.eqb (fst w) "srcfocus")
  end.

(** The weight as the specification words it: over the axes [axes], the
    distance between the grid point, in index units offset by the pad, and the
    source coordinate divided by the spacing of its axis. *)
Definition geometric_mean_spacing (model : GridModel) : R :=
  Rpower (Q2R (np_prod (spacing model))) (1 / INR (gdim model)).

Definition spec_distance2 (model : GridModel) (src_coords : list Q)
    (axes : list nat) (x : Dimension -> R) : R :=
  fold_right Rplus 0%R
    (map (fun i =>
            ((x (nth i (grid_dimensions model) EmptyString)
                - IZR (fst (nth i (padsizes model) (0%Z, 0%Z)))
              - Q2R (nth i src_coords 0%Q) / Q2R (nth i (spacing model) 0%Q)) ^ 2)%R)
         axes).

Definition spec_weight (model : GridModel) (src_coords : list Q)
    (delta : Q) (axes : list nat) : Expr :=
  fun x =>
    let c := (Q2R delta / geometric_mean_spacing model)%R in
    (sqrt (spec_distance2 model src_coords axes x + c ^ 2) / c)%R.

(** All spatial axes, and the depth axis (the last one). *)
Definition all_axes (model : GridModel) : list nat := range 0 (gdim model).
Definition depth_axis (model : GridModel) : list nat := [(gdim model - 1)%nat].

End Utils.

(** ** geom_utils.py *)

Module GeomUtils.

(** The attributes of the physical model that the geometry builder branches
    on.  [model.m], [model.irho] and the time step are symbols of the
    expressions below. *)
Record Model : Type := {
  is_elastic : bool;
  is_tti : bool;
  grid_dim : nat            (* model.grid.dim *)
}.

(** Grid resident fields; component functions are named. *)
Inductive field : Type :=
| TimeFunction (name : string)
| VectorTimeFunction (name : string) (comps : list string)
| TensorTimeFunction (name : string) (ndim : nat) (comps : list string).

(** The wavefield argument [u]: one field, or a tuple of fields. *)
Inductive wavefield : Type :=
| One (f : field)
| Many (fs : list field).

Definition as_tuple (u : wavefield) : list field :=
  match u with
  | One f => [f]
  | Many fs => fs
  end.

Definition field_name (f : field) : string :=
  match f with
  | TimeFunction n => n
  | VectorTimeFunction n _ => n
  | TensorTimeFunction n _ _ => n
  end.

(** [f[k]]: the [k]-th component function. *)
Definition field_getitem (f : field) (k : nat) : result field :=
  match f with
  | TimeFunction _ => Raise TypeError
  | VectorTimeFunction _ comps =>
      (c <- getitem comps k ;; Ok (TimeFunction c))%result
  | TensorTimeFunction _ _ comps =>
      (c <- getitem comps k ;; Ok (TimeFunction c))%result
  end.

(** [u[k]], indexing the argument itself. *)
Definition u_getitem (u : wavefield) (k : nat) : result field :=
  match u with
  | One f => field_getitem f k
  | Many fs => getitem fs k
  end.

(** [f.diagonal()] *)
Definition diagonal (f : field) : result (list field) :=
  match f with
  | TimeFunction _ => Raise AttributeError
  | VectorTimeFunction _ comps =>
      (c <- getitem comps 0 ;; Ok [TimeFunction c])%result
  | TensorTimeFunction _ ndim comps =>
      rmap (fun i => (c <- getitem comps (i * ndim + i) ;;
                      Ok (TimeFunction c))%result)
           (range 0 ndim)
  end.

Definition coords : Type := list (list Q).

(** Sparse point sets.  The data buffer has the shape (time, points); a
    source holds one signature, the same at each of its points: [src_data] is
    its column of samples, one per time row. *)
Record PointSource : Type := {
  src_name : string;
  src_ntime : nat;
  src_coordinates : coords;
  src_data : list Q
}.

Record Receiver : Type := {
  rcv_name : string;
  rcv_ntime : nat;
  rcv_coordinates : coords
}.

(** The [wavelet] argument: an array of shape (samples, 1), the signature of
    the source as a column, or a point source. *)
Inductive wavelet_t : Type :=
| WArray (samples : list Q)
| WSource (s : PointSource).

(** [wavelet.shape[0]] *)
Definition shape0 (w : wavelet_t) : nat :=
  match w with
  | WArray samples => List.length samples
  | WSource s => src_ntime s
  end.

(** Symbolic expressions handed to [inject] and [interpolate]. *)
Inductive expr : Type :=
| EObj (f : field)
| EWave (u : wavefield)
| EForward (e : expr)
| EBackward (e : expr)
| ESrc (s : PointSource)
| EDt
| EM
| EIrho
| EMul (a b : expr)
| EDiv (a b : expr)
| EPow (a : expr) (n : nat)
| ESum (l : list expr).

(** [f.trace()] *)
Definition trace (f : field) : result expr :=
  match f with
  | TimeFunction _ => Raise AttributeError
  | VectorTimeFunction _ _ => Raise ValueError
  | TensorTimeFunction _ _ _ =>
      (d <- diagonal f ;; Ok (ESum (map EObj d)))%result
  end.

(** What [inject] and [interpolate] return: one equation object each. *)
Inductive equation : Type :=
| Injection (src : PointSource) (field : expr) (e : expr)
| Interpolation (rcv : Receiver) (e : expr).

(** What a call leaves behind: the sparse point sets it allocated and the
    equations it had built, in order. *)
Inductive event : Type :=
| Alloc (name : string)
| Built (q : equation).

Definition M (A : Type) : Type := StateErr (list event) A.

Definition emit (e : event) : M unit := fun s => (s ++ [e], Ok tt).

Local Open Scope py_scope.

(** Modelled from the spec: the constructors [PointSource] and [Receiver] of
    the module [sources], which is not part of the sources; the spec gives a
    point set a data buffer of shape (time, points), so the time length has
    to be a number.  [PointSource(name=..., grid=model.grid, ntime=nt,
    coordinates=...)]: the buffer of [nt] rows starts at zero. *)
Definition new_PointSource (name : string) (ntime : nat) (c : coords)
  : M PointSource :=
  emit (Alloc name) ;;;
  ret {| src_name := name; src_ntime := ntime;
         src_coordinates := c; src_data := repeat 0 ntime |}.

(** Modelled from the spec: [Receiver(name=..., grid=model.grid, ntime=nt,
    coordinates=...)], of the same module; without a time length ([None])
    there is no buffer to allocate: a type error, and no point set. *)
Definition new_Receiver (name : string) (ntime : option nat) (c : coords)
  : M Receiver :=
  match ntime with
  | None => raise TypeError
  | Some n =>
      emit (Alloc name) ;;;
      ret {| rcv_name := name; rcv_ntime := n; rcv_coordinates := c |}
  end.

Definition with_data (src : PointSource) (data : list Q) : PointSource :=
  {| src_name := src_name src; src_ntime := src_ntime src;
     src_coordinates := src_coordinates src; src_data := data |}.

(** [src.data[:] = wavelet[:]], numpy's assignment to the rows of the buffer:
    a column of as many samples as the buffer has rows is copied, a single
    sample is repeated down the rows, any other length does not broadcast. *)
Definition set_data (src : PointSource) (samples : list Q)
  : result PointSource :=
  if (List.length samples =? src_ntime src)%nat then
    Ok (with_data src samples)
  else if (List.length samples =? 1)%nat then
    Ok (with_data src (repeat (hd 0 samples) (src_ntime src)))
  else Raise ValueError.

(** [src.data[:] = 0.] *)
Definition zero_data (src : PointSource) : PointSource :=
  with_data src (repeat 0 (src_ntime src)).

(** [src.inject(field=..., expr=...)] *)
Definition inject (src : PointSource) (fld e : expr) : M equation :=
  emit (Built (Injection src fld e)) ;;; ret (Injection src fld e).

(** [rcv.interpolate(expr=...)] *)
Definition interpolate (rcv : Receiver) (e : expr) : M equation :=
  emit (Built (Interpolation rcv e)) ;;; ret (Interpolation rcv e).

(** [nt or wavelet.shape[0]] *)
Definition nt_or_shape0 (nt : option nat) (wavelet : option wavelet_t) : result nat :=
  match nt with
  | Some (S n) => Ok (S n)
  | _ => match wavelet with
         | Some w => Ok (shape0 w)
         | None => Raise AttributeError
         end
  end.

Definition src_rec (model : Model) (u : wavefield)
    (src_coords rec_coords : option coords) (wavelet : option wavelet_t)
    (nt : option nat) : M (option PointSource * option Receiver) :=
  nt <-- lift (nt_or_shape0 nt wavelet) ;;
  namef <-- lift (if is_elastic model then
                    (t <- getitem (as_tuple u) 1 ;;
                     c <- field_getitem t 0 ;;
                     Ok (field_name c))%result
                  else
                    (f <- getitem (as_tuple u) 0 ;;
                     Ok (field_name f))%result) ;;
  src <-- match src_coords with
          | None => ret None
          | Some sc =>
              match wavelet with
              | Some (WSource s) => ret (Some s)
              | Some (WArray samples) =>
                  s <-- new_PointSource ("src" ++ namef) nt sc ;;
                  s <-- lift (set_data s samples) ;;
                  ret (Some s)
              | None =>
                  s <-- new_PointSource ("src" ++ namef) nt sc ;;
                  ret (Some (zero_data s))
              end
          end ;;
  rcv <-- match rec_coords with
          | None => ret None
          | Some rc =>
              r <-- new_Receiver ("rcv" ++ namef) (Some nt) rc ;;
              ret (Some r)
          end ;;
  ret (src, rcv).

(** The loop [for ud in ...: geom_expr += src.inject(field=ud.forward, ...)]. *)
Fixpoint inject_diagonal (src : PointSource) (uds : list field)
    (geom_expr : list equation) : M (list equation) :=
  match uds with
  | [] => ret geom_expr
  | ud :: uds' =>
      q <-- inject src (EForward (EObj ud)) (EMul (ESrc src) EDt) ;;
      inject_diagonal src uds' (geom_expr ++ [q])
  end.

Definition geom_expr (model : Model) (u : wavefield)
    (src_coords rec_coords : option coords) (wavelet : option wavelet_t)
    (fw : bool) (nt : option nat) (recv_coords : option coords)
  : M (list equation) :=
  let irho := EIrho in
  let m := EMul EM irho in
  let dt := EDt in
  let geom_expr : list equation := [] in
  sr <-- src_rec model u src_coords rec_coords wavelet nt ;;
  let src := fst sr in
  let rcv := snd sr in
  geom_expr <--
    match src with
    | Some src =>
        if is_elastic model then
          tau <-- lift (getitem (as_tuple u) 1) ;;
          d <-- lift (diagonal tau) ;;
          inject_diagonal src d geom_expr
        else
          u0 <-- lift (getitem (as_tuple u) 0) ;;
          let u_n := if fw then EForward (EObj u0) else EBackward (EObj u0) in
          q <-- inject src u_n (EDiv (EMul (ESrc src) (EPow dt 2)) m) ;;
          ret (geom_expr ++ [q])
    | None => ret geom_expr
    end ;;
  match rcv with
  | Some rcv =>
      if is_elastic model then
        match recv_coords with
        | None => raise Exception_
        | Some recv_coords =>
            rec_vx <-- new_Receiver "rec_vx" nt recv_coords ;;
            rec_vz <-- new_Receiver "rec_vz" nt recv_coords ;;
            rec_vy <-- (if (grid_dim model =? 3)%nat then
                          r <-- new_Receiver "rec_vy" nt recv_coords ;;
                          ret (Some r)
                        else ret None) ;;
            v <-- lift (u_getitem u 0) ;;
            v0 <-- lift (field_getitem v 0) ;;
            rec_term_vx <-- interpolate rec_vx (EObj v0) ;;
            v1 <-- lift (field_getitem v 1) ;;
            rec_term_vz <-- interpolate rec_vz (EObj v1) ;;
            let rec_expr := [rec_term_vx; rec_term_vz] in
            rec_expr <--
              match rec_vy with
              | Some rec_vy =>
                  v2 <-- lift (field_getitem v 2) ;;
                  rec_term_vy <-- interpolate rec_vy (EObj v2) ;;
                  ret (rec_expr ++ [rec_term_vy])
              | None => ret rec_expr
              end ;;
            tau <-- lift (u_getitem u 1) ;;
            tau_expr <-- lift (trace tau) ;;
            rec_term_tau <-- interpolate rcv tau_expr ;;
            let rec_expr := rec_expr ++ [rec_term_tau] in
            ret (geom_expr ++ rec_expr)
        end
      else
        rec_expr <-- (if is_tti model then
                        u0 <-- lift (u_getitem u 0) ;; ret (EObj u0)
                      else ret (EWave u)) ;;
        adj_rcv <-- interpolate rcv rec_expr ;;
        ret (geom_expr ++ [adj_rcv])
  | None => ret geom_expr
  end.

(** The wavefields the geometry builder is written for: (v, tau) with a
    square stress tensor for an elastic model; otherwise a field, or a tuple
    that starts with one (a tuple when the model is TTI). *)
Definition elastic_wavefield (u : wavefield) : bool :=
  match u with
  | Many (_ :: TensorTimeFunction _ ndim comps :: _) =>
      (0 <? ndim)%nat && (List.length comps =? ndim * ndim)%nat
  | _ => false
  end.

Definition scalar_wavefield (model : Model) (u : wavefield)
  : bool :=
  match u with
  | One _ => negb (is_tti model)
  | Many (_ :: _) => true
  | Many [] => false
  end.

(** The wavelets that the copy into a source buffer of [n] rows accepts:
    an array of [n] samples or of one; a point source is not copied. *)
Definition fits_buffer (n : nat) (wavelet : option wavelet_t) : bool :=
  match wavelet with
  | Some (WArray samples) =>
      (List.length samples =? n)%nat || (List.length samples =? 1)%nat
  | _ => true
  end.

Definition is_interpolation (e : event) : bool :=
  match e with
  | Built (Interpolation _ _) => true
  | _ => false
  end.

Definition is_alloc (e : event) : bool :=
  match e with
  | Alloc _ => true
  | _ => false
  end.

End GeomUtils.

(** ** interface.py *)

Module Interface.

Definition buf : Type := list Q.
Definition coords : Type := list (list Q).

(** Keyword arguments of a call to the propagator layer. *)
Inductive value : Type :=
| VNone
| VBool (b : bool)
| VInt (z : Z)
| VBuf (l : list Q).

Definition kwargs : Type := list (string * value).

Fixpoint kwarg (kw : kwargs) (k : string) : option value :=
  match kw with
  | [] => None
  | (k', v) :: kw' => if String.eqb k k' then Some v else kwarg kw' k
  end.

Definition VOptInt (o : option Z) : value :=
  match o with Some z => VInt z | None => VNone end.

Definition VOptBuf (o : option buf) : value :=
  match o with Some b => VBuf b | None => VNone end.

(** A grid resident field as the checkpointing strategy sees it: its name,
    the number of elements a checkpoint saves of it, and the byte width of
    an element. *)
Record Field : Type := {
  fname : string;
  fsize : Z;
  fitemsize : Z
}.

Inductive wavefield : Type :=
| One (f : Field)
| Many (fs : list Field).

Definition as_tuple (u : wavefield) : list Field :=
  match u with
  | One f => [f]
  | Many fs => fs
  end.

(** [u.data.itemsize]: a tuple has no [data]. *)
Definition data_itemsize (u : wavefield) : result Z :=
  match u with
  | One f => Ok (fitemsize f)
  | Many _ => Raise AttributeError
  end.

(** Modelled from the spec: [DevitoCheckpoint(objects).size], of the
    checkpoint adapter module that is not part of the sources; the spec has it
    as the total saved-field element count. *)
Definition cp_size (objects : list Field) : Z :=
  fold_right Z.add 0%Z (map fsize objects).

(** What the propagators return: the receiver data, the wavefield; the
    gradient data, the adjoint wavefield. *)
Record fwd_out : Type := { fwd_rec : buf; fwd_u : wavefield }.
Record grad_out : Type := { grad_g : buf; grad_v : wavefield }.

(** What [J_adjoint*] returns: [g.data], or the pair [(objective, g.data)]. *)
Inductive retval : Type :=
| Grad (g : buf)
| ObjGrad (obj : Q) (g : buf).

(** Calls to the external layers, in order. *)
Inductive event : Type :=
| CallForward (kw : kwargs)
| CallGradient (residual : buf) (kw : kwargs)
| NewReceiver (name : string) (ntime : Z)
| NewCheckpointOperator (keys : list string)
| NewRevolver (cp : Z) (n_checkpoints : option Z) (n_timesteps : Z)
| ApplyForward
| ApplyReverse (rec_data : buf).

(** The caller's data buffer [recin] is shared with the callee. *)
Record state : Type := {
  recin : buf;
  log : list event
}.

Definition M (A : Type) : Type := StateErr state A.

Definition emit (e : event) : M unit :=
  fun s => ({| recin := recin s; log := log s ++ [e] |}, Ok tt).

Definition get_recin : M buf := fun s => (s, Ok (recin s)).

(** [recin[:] = b] *)
Definition set_recin (b : buf) : M unit :=
  fun s => ({| recin := b; log := log s |}, Ok tt).

(** [a[:] - b[:]] on buffers of one shape. *)
Definition buf_sub (a b : buf) : result buf :=
  if (List.length a =? List.length b)%nat
  then Ok (map (fun p => fst p - snd p) (combine a b))
  else Raise ValueError.

(** [dst[:] = src[:]] on buffers of one shape. *)
Definition buf_assign (dst src : buf) : result buf :=
  if (List.length dst =? List.length src)%nat then Ok src else Raise ValueError.

(** [np.linalg.norm(b)**2] *)
Definition norm2 (b : buf) : Q := fold_right Qplus 0 (map (fun x => x * x) b).

(** A dictionary of operator arguments, by the names of its keys;
    [d.update({k: _})]. *)
Definition keys_update (d : list string) (k : string) : list string :=
  if existsb (String.eqb k) d then d else d ++ [k].

Local Open Scope py_scope.

Section Strategies.

Variable Model : Type.
Variable critical_dt : Model -> Q.

(** The propagator layer and the revolve driver, by their call contracts. *)
Variable forward : Model -> coords -> coords -> buf -> kwargs -> fwd_out.
Variable gradient : Model -> buf -> coords -> wavefield -> kwargs -> grad_out.
Variable revolve : grad_out -> option Z -> Z -> buf -> buf.

Definition call_forward (model : Model) (src_coords rec_coords : coords)
    (wavelet : buf) (kw : kwargs) : M fwd_out :=
  emit (CallForward kw) ;;;
  ret (forward model src_coords rec_coords wavelet kw).

Definition call_gradient (model : Model) (rec_coords : coords)
    (u : wavefield) (kw : kwargs) : M grad_out :=
  residual <-- get_recin ;;
  emit (CallGradient residual kw) ;;;
  ret (gradient model residual rec_coords u kw).

Definition J_adjoint_freq (model : Model) (src_coords : coords) (wavelet : buf)
    (rec_coords : coords) (space_order : Z) (freq_list : list Q)
    (is_residual return_obj : bool) (dft_sub : option Z) (isic : bool)
    (ws : option buf) (t_sub : Z) : M retval :=
  out <-- call_forward model src_coords rec_coords wavelet
            [("save", VBool false); ("ws", VOptBuf ws);
             ("space_order", VInt space_order); ("freq_list", VBuf freq_list);
             ("dft_sub", VOptInt dft_sub)]%string ;;
  (if negb is_residual then
     r <-- get_recin ;;
     d <-- lift (buf_sub (fwd_rec out) r) ;;
     set_recin d
   else ret tt) ;;;
  g <-- call_gradient model rec_coords (fwd_u out)
          [("space_order", VInt space_order); ("isic", VBool isic);
           ("freq", VBuf freq_list); ("dft_sub", VOptInt dft_sub)]%string ;;
  if return_obj then
    r <-- get_recin ;;
    ret (ObjGrad ((5 # 10) * critical_dt model * norm2 r) (grad_g g))
  else ret (Grad (grad_g g)).

Definition J_adjoint_standard (model : Model) (src_coords : coords)
    (wavelet : buf) (rec_coords : coords) (space_order : Z)
    (is_residual return_obj isic : bool) (ws : option buf) (t_sub : Z)
  : M retval :=
  out <-- call_forward model src_coords rec_coords wavelet
            [("save", VBool true); ("ws", VOptBuf ws);
             ("space_order", VInt space_order); ("t_sub", VInt t_sub)]%string ;;
  (if negb is_residual then
     r <-- get_recin ;;
     d <-- lift (buf_sub (fwd_rec out) r) ;;
     set_recin d
   else ret tt) ;;;
  g <-- call_gradient model rec_coords (fwd_u out)
          [("space_order", VInt space_order); ("isic", VBool isic)]%string ;;
  if return_obj then
    r <-- get_recin ;;
    ret (ObjGrad ((5 # 10) * critical_dt model * norm2 r) (grad_g g))
  else ret (Grad (grad_g g)).

(** [int(np.floor(maxmem * 10**6 / memsize))] *)
Definition checkpoints_for (maxmem : Q) (memsize : Z) : result Z :=
  if (memsize =? 0)%Z then Raise ZeroDivisionError
  else Ok (Qfloor (maxmem * inject_Z (10 ^ 6) / inject_Z memsize)).

Definition J_adjoint_checkpointing (model : Model) (src_coords : coords)
    (wavelet : buf) (rec_coords : coords) (space_order : Z)
    (is_residual : bool) (n_checkpoints : option Z) (maxmem : option Q)
    (return_obj isic : bool) (ws : option buf) (t_sub : Z) : M retval :=
  (* Optimal checkpointing *)
  fo <-- call_forward model src_coords rec_coords wavelet
           [("space_order", VInt space_order); ("return_op", VBool true);
            ("ws", VOptBuf ws)]%string ;;
  let u := fwd_u fo in
  let rec_g := fwd_rec fo in
  go <-- call_gradient model rec_coords u
           [("space_order", VInt space_order); ("return_op", VBool true);
            ("isic", VBool isic)]%string ;;
  let v := grad_v go in
  let nt := Z.of_nat (List.length wavelet) in
  emit (NewReceiver "rec" nt) ;;;
  let rec_data : buf := repeat 0 (List.length wavelet * List.length rec_coords) in
  let cp := cp_size (as_tuple u) in
  n_checkpoints <--
    match maxmem with
    | Some maxmem =>
        itemsize <-- lift (data_itemsize u) ;;
        let memsize := (cp * itemsize)%Z in
        n <-- lift (checkpoints_for maxmem memsize) ;;
        ret (Some n)
    | None => ret n_checkpoints
    end ;;
  (* Op arguments *)
  let uk := fold_left keys_update (map fname (as_tuple u)) [] in
  let vk := fold_left keys_update (map fname (as_tuple v)) uk in
  u0 <-- lift (getitem (as_tuple u) 0) ;;
  let uk := keys_update uk ("rcv" ++ fname u0) in
  v0 <-- lift (getitem (as_tuple v) 0) ;;
  let vk := keys_update vk ("src" ++ fname v0) in
  (* Wrapped ops *)
  emit (NewCheckpointOperator ("vp"%string :: uk)) ;;;
  emit (NewCheckpointOperator ("vp"%string :: vk)) ;;;
  (* Run forward *)
  emit (NewRevolver cp n_checkpoints (nt - 2)) ;;;
  emit ApplyForward ;;;
  (* Residual and gradient *)
  r <-- get_recin ;;
  rec_data <--
    (if is_residual then lift (buf_assign rec_data r)
     else d <-- lift (buf_sub rec_data r) ;; lift (buf_assign rec_data d)) ;;
  emit (ApplyReverse rec_data) ;;;
  let g := revolve go n_checkpoints (nt - 2) rec_data in
  if return_obj then
    ret (ObjGrad ((5 # 10) * critical_dt model * norm2 rec_data) g)
  else ret (Grad g).

Definition J_adjoint (model : Model) (src_coords : coords) (wavelet : buf)
    (rec_coords : coords) (space_order : Z) (checkpointing : bool)
    (n_checkpoints : option Z) (maxmem : option Q) (freq_list : list Q)
    (dft_sub : option Z) (isic : bool) (ws : option buf) (t_sub : Z)
  : M retval :=
  if checkpointing then
    J_adjoint_checkpointing model src_coords wavelet rec_coords 8
      true n_checkpoints maxmem false isic ws t_sub
  else if (0 <? List.length freq_list)%nat then
    J_adjoint_freq model src_coords wavelet rec_coords space_order freq_list
      true false dft_sub isic ws t_sub
  else
    J_adjoint_standard model src_coords wavelet rec_coords space_order
      true false isic ws t_sub.

End Strategies.

(** What the calls to the propagator layer carry, and what a strategy
    leaves of the state of its caller. *)
Definition event_space_order (e : event) : option value :=
  match e with
  | CallForward kw => kwarg kw "space_order"
  | CallGradient _ kw => kwarg kw "space_order"
  | _ => None
  end.

Definition carries_order (so : Z) (e : event) : Prop :=
  forall v, event_space_order e = Some v -> v = VInt so.

(** [m] keeps the caller's buffer and only adds events that satisfy [P]. *)
Definition frames {A : Type} (P : event -> Prop) (m : M A) : Prop :=
  forall s, recin (fst (m s)) = recin s /\
            exists new, log (fst (m s)) = log s ++ new /\ Forall P new.

End Interface.

(** ** Concrete inputs *)

Module Inputs.

(** An elastic medium with vp = 2, vs = 1, rho = 1 (so lam = 2, mu = 1). *)
Definition elastic (d : nat) : Utils.Model :=
  {| Utils.dim := d;
     Utils.vp := 2; Utils.vs := 1; Utils.irho := 1;
     Utils.lam := 2; Utils.mu := 1;
     Utils.Ip := 2; Utils.Is := 1 |}.

(** A symmetric 2 by 2 tensor field over two space dimensions. *)
Definition sym2 : Utils.TensorField nat :=
  {| Utils.is_TensorValued := true;
     Utils.space_dimensions := ["x"; "z"]%string;
     Utils.shape := (2, 2)%nat;
     Utils.flat := [11; 12; 12; 22]%nat |}.

(** A 2-D grid of unit spacing without absorbing layer, a source at
    x = 0, z = 3, and the grid point of indices (0, 0). *)
Definition grid2 : Utils.GridModel :=
  {| Utils.gdim := 2;
     Utils.grid_dimensions := ["x"; "z"]%string;
     Utils.spacing := [1; 1];
     Utils.padsizes := [(0, 0); (0, 0)]%Z |}.

Definition src_0_3 : list Q := [0; 3].

Definition origin : Utils.Dimension -> R := fun _ => 0%R.

(** An elastic 2-D model with its wavefield (v, tau), an acoustic model with
    its wavefield, and one receiver position. *)
Definition elastic_model : GeomUtils.Model :=
  {| GeomUtils.is_elastic := true;
     GeomUtils.is_tti := false;
     GeomUtils.grid_dim := 2 |}.

Definition v_tau : GeomUtils.wavefield :=
  GeomUtils.Many
    [GeomUtils.VectorTimeFunction "v" ["vx"; "vz"];
     GeomUtils.TensorTimeFunction "tau" 2 ["txx"; "txz"; "txz"; "tzz"]]%string.

Definition acoustic_model : GeomUtils.Model :=
  {| GeomUtils.is_elastic := false;
     GeomUtils.is_tti := false;
     GeomUtils.grid_dim := 2 |}.

Definition pressure : GeomUtils.wavefield :=
  GeomUtils.One (GeomUtils.TimeFunction "u").

Definition one_point : GeomUtils.coords := [[0; 0]].

Definition ricker : GeomUtils.wavelet_t := GeomUtils.WArray [0; 1; 0].

(** A propagator layer that returns one field of 1000 saved elements of 4
    bytes, and a three sample wavelet. *)
Definition field_u : Interface.Field :=
  {| Interface.fname := "u"; Interface.fsize := 1000; Interface.fitemsize := 4 |}.

Definition field_v : Interface.Field :=
  {| Interface.fname := "v"; Interface.fsize := 1000; Interface.fitemsize := 4 |}.

Definition forward (_ : unit) (_ _ : Interface.coords) (_ : Interface.buf)
    (_ : Interface.kwargs) : Interface.fwd_out :=
  {| Interface.fwd_rec := [0; 0; 0]; Interface.fwd_u := Interface.One field_u |}.

Definition gradient (_ : unit) (_ : Interface.buf) (_ : Interface.coords)
    (_ : Interface.wavefield) (_ : Interface.kwargs) : Interface.grad_out :=
  {| Interface.grad_g := [0]; Interface.grad_v := Interface.One field_v |}.

Definition revolve (_ : Interface.grad_out) (_ : option Z) (_ : Z)
    (b : Interface.buf) : Interface.buf := b.

Definition caller : Interface.state :=
  {| Interface.recin := [1; 2; 3]; Interface.log := [] |}.

End Inputs.

(** Entrywise equality of rational matrices, as a proposition. *)
Definition mat_eq (a b : Utils.QMatrix) : Prop := Forall2 (Forall2 Qeq) a b.

(** The admissible arguments of the Voigt reshapes in [n] space dimensions:
    a symmetric [n] by [n] tensor field, and a column of [3n - 3] components. *)
Definition symmetric_tensor {A : Type} (n : nat) (M : Utils.TensorField A) : Prop :=
  Utils.is_TensorValued M = true /\
  List.length (Utils.space_dimensions M) = n /\
  Utils.shape M = (n, n) /\
  List.length (Utils.flat M) = (n * n)%nat /\
  forall i j, (i < n)%nat -> (j < n)%nat ->
              Utils.getitem2 M i j = Utils.getitem2 M j i.

Definition voigt_vector {A : Type} (n : nat) (v : Utils.TensorField A) : Prop :=
  Utils.is_TensorValued v = true /\
  List.length (Utils.space_dimensions v) = n /\
  Utils.shape v = ((3 * n - 3)%nat, 1%nat) /\
  List.length (Utils.flat v) = (3 * n - 3)%nat.

(** The component order of the flattened form. *)
Definition voigt_order (n : nat) : list (nat * nat) :=
  if (n =? 3)%nat
  then [(0, 0); (1, 1); (2, 2); (1, 2); (0, 2); (0, 1)]%nat
  else [(0, 0); (1, 1); (0, 1)]%nat.

(** A grid model of [n] axes with the coordinates [row] of a source. *)
Definition grid_of_dim (n : nat) (model : Utils.GridModel) (row : list Q) : Prop :=
  Utils.gdim model = n /\ (0 < n)%nat /\
  List.length (Utils.grid_dimensions model) = n /\
  List.length (Utils.spacing model) = n /\
  List.length (Utils.padsizes model) = n /\
  List.length row = n /\
  Forall (fun sp => ~ sp == 0) (Utils.spacing model).

(** The source position along axis [i], in index units. *)
Definition isrc_value (model : Utils.GridModel) (row : list Q) (i : nat) : Q :=
  inject_Z (fst (nth i (Utils.padsizes model) (0%Z, 0%Z)))
  + nth i row 0 / nth i (Utils.spacing model) 0.

(** ** Further code of utils.py *)

(** *** fields_kwargs *)

Module FieldsKwargs.

(** A field object: its name, and a mark that tells two objects of one name
    apart. *)
Record Field : Type := {
  name : string;
  ident : nat
}.

(** An argument of [fields_kwargs]: [None], an iterable of arguments, an
    object whose [flat()] gives its component fields, or a plain field (its
    [flat] raises the attribute error). *)
Inductive pyarg : Type :=
| PNone
| PIter (items : list pyarg)
| PComposite (components : list Field)
| PField (f : Field).

(** A dictionary from names to fields, in insertion order. *)
Definition kwdict : Type := list (string * Field).

Fixpoint lookup (d : kwdict) (k : string) : option Field :=
  match d with
  | [] => None
  | (k', v) :: d' => if String.eqb k k' then Some v else lookup d' k
  end.

(** [d[k] = v] *)
Fixpoint setitem (d : kwdict) (k : string) (v : Field) : kwdict :=
  match d with
  | [] => [(k, v)]
  | (k', v') :: d' =>
      if String.eqb k k' then (k', v) :: d' else (k', v') :: setitem d' k v
  end.

(** [d.update(d')] *)
Definition update (d d' : kwdict) : kwdict :=
  fold_left (fun acc p => setitem acc (fst p) (snd p)) d' d.

(** [{f.name: f for f in fields}] *)
Definition dict_of (fields : list Field) : kwdict :=
  fold_left (fun acc f => setitem acc (name f) f) fields [].

(** The body of the loop, for one argument. *)
Fixpoint step (kw : kwdict) (field : pyarg) {struct field} : kwdict :=
  match field with
  | PNone => kw
  | PIter items => update kw (fold_left (fun kw a => step kw a) items [])
  | PComposite components => update kw (dict_of components)
  | PField f => update kw [(name f, f)]
  end.

Definition fields_kwargs (args : list pyarg) : kwdict :=
  fold_left (fun kw a => step kw a) args [].

(** The fields an argument holds, left to right. *)
Fixpoint leaves_of (field : pyarg) : list Field :=
  match field with
  | PNone => []
  | PIter items => flat_map leaves_of items
  | PComposite components => components
  | PField f => [f]
  end.

Definition leaves (args : list pyarg) : list Field := flat_map leaves_of args.

(** The last field of a list that has the name [k]. *)
Definition last_named (k : string) (l : list Field) : option Field :=
  find (fun f => String.eqb k (name f)) (rev l).

End FieldsKwargs.

(** *** D and S *)

Module Operators.

(** The symbolic components of a field: a named function, a derivative along
    a dimension, a sum, or an integer. *)
Inductive sym : Type :=
| Comp (name : string)
| Deriv (d : string) (e : sym)
| Add (terms : list sym)
| Int (z : Z).

(** [getattr(e, 'd%s' % d)]: an integer has no derivative attribute. *)
Definition getattr_d (d : string) (e : sym) : result sym :=
  match e with
  | Int _ => Raise AttributeError
  | _ => Ok (Deriv d e)
  end.

(** [sum(terms)], which starts from 0. *)
Definition pysum (terms : list sym) : sym :=
  match terms with
  | [] => Int 0
  | [t] => t
  | _ => Add terms
  end.

Definition enumerate {A : Type} (l : list A) : list (nat * A) :=
  combine (seq 0 (List.length l)) l.

Definition D (self : Utils.TensorField sym) : result (Utils.TensorField sym) :=
  if negb (Utils.is_TensorValued self) then Raise TypeError
  else
    (M <- (if negb (fst (Utils.shape self) =? snd (Utils.shape self))%nat
           then Utils.tensor (Int 0) self
           else Ok self) ;;
     comps <- rmap (fun jd =>
                      (terms <- rmap (fun id =>
                                        (e <- Utils.getitem2 M (fst jd) (fst id) ;;
                                         getattr_d (snd id) e)%result)
                                     (enumerate (Utils.space_dimensions self)) ;;
                       Ok (pysum terms))%result)
                   (enumerate (Utils.space_dimensions self)) ;;
     Ok (Utils.tens_func self (List.length comps) 1 comps))%result.

(** A vector valued field. *)
Record VectorField : Type := {
  is_VectorValued : bool;
  v_space_dimensions : list string;
  v_comps : list sym
}.

(** [getattr(self[k], derivs[m])] *)
Definition component_d (self : VectorField) (k m : nat) : result sym :=
  (c <- getitem (v_comps self) k ;;
   d <- getitem (v_space_dimensions self) m ;;
   getattr_d d c)%result.

Definition S (self : VectorField) : result (Utils.TensorField sym) :=
  if negb (is_VectorValued self) then Raise TypeError
  else
    (c0 <- component_d self 0 0 ;;
     c1 <- component_d self 1 1 ;;
     comp <- (if (List.length (v_space_dimensions self) =? 3)%nat then
                c2 <- component_d self 2 2 ;;
                a <- component_d self 1 2 ;;
                b <- component_d self 2 1 ;;
                let yz := Add [a; b] in
                a <- component_d self 0 2 ;;
                b <- component_d self 2 0 ;;
                let xz := Add [a; b] in
                Ok [c0; c1; c2; yz; xz]
              else Ok [c0; c1]) ;;
     a <- component_d self 0 1 ;;
     b <- component_d self 1 0 ;;
     let comp := comp ++ [Add [a; b]] in
     Ok {| Utils.is_TensorValued := true;
           Utils.space_dimensions := v_space_dimensions self;
           Utils.shape := (List.length comp, 1%nat);
           Utils.flat := comp |})%result.

(** The entry (i, j) of the symmetric gradient of a vector field. *)
Definition strain (self : VectorField) (i j : nat) : sym :=
  let d k := nth k (v_space_dimensions self) EmptyString in
  let v k := nth k (v_comps self) (Int 0) in
  if (i =? j)%nat then Deriv (d i) (v i)
  else Add [Deriv (d (Nat.max i j)) (v (Nat.min i j));
            Deriv (d (Nat.min i j)) (v (Nat.max i j))].

Definition is_Int (e : sym) : bool :=
  match e with
  | Int _ => true
  | _ => false
  end.

End Operators.

(** ** Further inputs and notions *)

Module MoreInputs.

(** A symmetric stress field and a velocity field over two dimensions. *)
Definition stress2 : Utils.TensorField Operators.sym :=
  {| Utils.is_TensorValued := true;
     Utils.space_dimensions := ["x"; "z"]%string;
     Utils.shape := (2, 2)%nat;
     Utils.flat := [Operators.Comp "txx"; Operators.Comp "txz";
                    Operators.Comp "txz"; Operators.Comp "tzz"] |}.

Definition velocity2 : Operators.VectorField :=
  {| Operators.is_VectorValued := true;
     Operators.v_space_dimensions := ["x"; "z"]%string;
     Operators.v_comps := [Operators.Comp "vx"; Operators.Comp "vz"] |}.

(** A point source of three samples. *)
Definition source3 : GeomUtils.PointSource :=
  {| GeomUtils.src_name := "src";
     GeomUtils.src_ntime := 3;
     GeomUtils.src_coordinates := [[0; 0]];
     GeomUtils.src_data := [0; 1; 0] |}.

(** A propagator that returns a pair of fields, as for a TTI model. *)
Definition forward_pair (_ : unit) (_ _ : Interface.coords) (_ : Interface.buf)
    (_ : Interface.kwargs) : Interface.fwd_out :=
  {| Interface.fwd_rec := [0; 0; 0];
     Interface.fwd_u := Interface.Many [Inputs.field_u; Inputs.field_v] |}.

End MoreInputs.

(** The entry of row [i] and column [j], counted from 0; 0 outside. *)
Definition entry_at (m : Utils.Matrix) (i j : nat) : Utils.entry :=
  nth j (nth i m []) (Utils.Num 0).

Definition symmetric_matrix (m : Utils.Matrix) : Prop :=
  forall i j, entry_at m i j = entry_at m j i.

Definition square_of_size (n : nat) (m : Utils.Matrix) : Prop :=
  List.length m = n /\ Forall (fun row => List.length row = n) m.

(** [k * a] and [a + b] on rational matrices. *)
Definition mat_scale (k : Q) (a : Utils.QMatrix) : Utils.QMatrix :=
  map (map (Qmult k)) a.

Definition mat_add (a b : Utils.QMatrix) : Utils.QMatrix :=
  map (fun rows => map (fun p => fst p + snd p) (combine (fst rows) (snd rows)))
      (combine a b).

(** The values of the attribute [name] of a stiffness tensor. *)
Definition attr_values (M : Utils.StiffnessTensor) (name : string)
  : option Utils.QMatrix :=
  match Utils.getattr (Utils.attrs M) name with
  | Ok a => Utils.values a
  | Raise _ => None
  end.

(** The wavefield fits the model. *)
Definition fits (model : GeomUtils.Model) (u : GeomUtils.wavefield) : bool :=
  if GeomUtils.is_elastic model
  then GeomUtils.elastic_wavefield u
  else GeomUtils.scalar_wavefield model u.

(** * Properties *)

(** ** compute_optalpha *)

Lemma Qgtb_true (a b : Q) : Utils.Qgtb a b = true <-> b < a.
Proof.
  unfold Utils.Qgtb. rewrite negb_true_iff. split.
  - intros H. apply Qnot_le_lt. intros Hle.
    apply Qle_bool_iff in Hle. congruence.
  - intros H. destruct (Qle_bool a b) eqn:E; [|reflexivity].
    apply Qle_bool_iff in E. exfalso. exact (Qlt_not_le _ _ H E).
Qed.

Lemma Qgtb_false (a b : Q) : Utils.Qgtb a b = false <-> a <= b.
Proof.
  unfold Utils.Qgtb. rewrite negb_false_iff. apply Qle_bool_iff.
Qed.

(** C4: [compute_optalpha] returns 1 whenever [comp_alpha] is false; when it
    is true, 0 if [norm_r <= epsilon] or [norm_Fty <= 0], and otherwise
    [norm_r * (norm_r - epsilon) / norm_Fty]; at (5, 10, 2) that is 1.5 and
    at (1, 10, 2) it is 0. *)
Theorem compute_optalpha_cases (norm_r norm_Fty epsilon : Q) :
  Utils.compute_optalpha norm_r norm_Fty epsilon false = 1 /\
  (norm_r <= epsilon \/ norm_Fty <= 0 ->
   Utils.compute_optalpha norm_r norm_Fty epsilon true = 0) /\
  (~ (norm_r <= epsilon \/ norm_Fty <= 0) ->
   Utils.compute_optalpha norm_r norm_Fty epsilon true
   = norm_r * (norm_r - epsilon) / norm_Fty) /\
  Utils.compute_optalpha 5 10 2 true == 1.5 /\
  Utils.compute_optalpha 1 10 2 true == 0.
Proof.
  repeat split.
  - intros [H | H]; unfold Utils.compute_optalpha.
    + apply Qgtb_false in H. rewrite H. reflexivity.
    + apply Qgtb_false in H. rewrite H, andb_false_r. reflexivity.
  - intros H. unfold Utils.compute_optalpha.
    destruct (Utils.Qgtb norm_r epsilon) eqn:E1.
    + destruct (Utils.Qgtb norm_Fty 0) eqn:E2; [reflexivity|].
      exfalso. apply H. right. apply Qgtb_false. exact E2.
    + exfalso. apply H. left. apply Qgtb_false. exact E1.
Qed.

Lemma compute_optalpha_cases_witness :
  (1 <= 2 \/ 10 <= 0) /\ Utils.compute_optalpha 1 10 2 true = 0.
Proof.
  assert (H : (1:Q) <= 2 \/ (10:Q) <= 0) by (left; discriminate).
  split; [exact H|].
  exact (proj1 (proj2 (compute_optalpha_cases 1 10 2)) H).
Defined.

(** ** C_Matrix *)

(** The inverse attached to the Lame parameterization is, in 3-D, an inverse
    of the stiffness matrix: the sibling of [_inverse_C_vp_vs]. *)
Lemma inverse_C_lam_3d (model : Utils.Model) :
  Utils.dim model = 3%nat ->
  ~ Utils.mu model == 0 ->
  ~ 3 * Utils.lam model + 2 * Utils.mu model == 0 ->
  exists p,
    Utils.inv_times model "lam-mu" = Ok (Some p) /\ mat_eq p (Utils.eye 6).
Proof.
  intros Hd Hmu Hk.
  destruct model as [d vp vs irho lam mu Ip Is]. simpl in *. subst d.
  assert (H3 : ~ 3 * lam * mu + 2 * mu * mu == 0).
  { intros H. apply Hk.
    assert (E : (3 * lam + 2 * mu) * mu == 0) by (rewrite <- H; ring).
    apply Qmult_integral in E. destruct E as [E | E]; [exact E | contradiction]. }
  assert (H6 : ~ 6 * lam * mu + 4 * mu * mu == 0).
  { intros H. apply H3.
    assert (E : 2 * (3 * lam * mu + 2 * mu * mu) == 0) by (rewrite <- H; ring).
    apply Qmult_integral in E. destruct E as [E | E]; [discriminate E | exact E]. }
  eexists. split.
  - Local Opaque Qplus Qmult Qdiv Qopp Qminus Qinv inject_Z.
    cbv. reflexivity.
  - unfold mat_eq. cbv [Utils.eye map seq Nat.eqb].
    Local Transparent Qplus Qmult Qdiv Qopp Qminus Qinv inject_Z.
    repeat (apply Forall2_cons || apply Forall2_nil);
      field; repeat split; assumption.
Qed.

(** C1, at the elastic medium vp = 2, vs = 1, rho = 1: the product
    [inv * C] of the matrices [C_Matrix(model, "vp-vs-rho")] carries is not the
    identity, in 3-D (its first entry is 9/4) and in 2-D (15/8). *)
Theorem inverse_C_vp_vs_is_not_an_inverse :
  (exists p,
     Utils.inv_times (Inputs.elastic 3) "vp-vs-rho" = Ok (Some p) /\
     nth 0 (nth 0 p []) 0 == 9 # 4 /\
     Utils.mat_eqb p (Utils.eye 6) = false) /\
  (exists p,
     Utils.inv_times (Inputs.elastic 2) "vp-vs-rho" = Ok (Some p) /\
     nth 0 (nth 0 p []) 0 == 15 # 8 /\
     Utils.mat_eqb p (Utils.eye 3) = false).
Proof.
  split; eexists; (split; [vm_compute; reflexivity | split; reflexivity]).
Qed.

(** ** vec and tensor *)

Ltac destruct_dims sd :=
  destruct sd as [|? [|? [|? [|? ?]]]]; simpl in *; try discriminate.

Lemma vec_of_symmetric {A : Type} (zero : A) (n : nat) (M : Utils.TensorField A) :
  n = 2%nat \/ n = 3%nat ->
  symmetric_tensor n M ->
  exists v,
    Utils.vec M = Ok v /\ voigt_vector n v /\
    rmap (fun o => Utils.getitem2 M (fst o) (snd o)) (voigt_order n)
    = Ok (Utils.flat v) /\
    Utils.tensor zero v = Ok M.
Proof.
  intros Hn (Ht & Hsd & Hsh & Hlen & Hsym).
  destruct M as [tv sd sh fl]. simpl in Ht, Hsd, Hsh, Hlen. subst tv sh.
  destruct Hn as [-> | ->].
  - destruct_dims sd.
    destruct fl as [|a [|b [|c [|d [|? ?]]]]]; simpl in Hlen; try discriminate.
    pose proof (Hsym 0%nat 1%nat ltac:(lia) ltac:(lia)) as H01.
    cbv in H01. injection H01 as ->.
    eexists. split; [cbv; reflexivity|].
    repeat split.
  - destruct_dims sd.
    destruct fl as [|a0 [|a1 [|a2 [|a3 [|a4 [|a5 [|a6 [|a7 [|a8 [|? ?]]]]]]]]]];
      simpl in Hlen; try discriminate.
    pose proof (Hsym 0%nat 1%nat ltac:(lia) ltac:(lia)) as H01.
    pose proof (Hsym 0%nat 2%nat ltac:(lia) ltac:(lia)) as H02.
    pose proof (Hsym 1%nat 2%nat ltac:(lia) ltac:(lia)) as H12.
    cbv in H01, H02, H12.
    injection H01 as ->. injection H02 as ->. injection H12 as ->.
    eexists. split; [cbv; reflexivity|].
    repeat split.
Qed.

Lemma tensor_of_voigt {A : Type} (zero : A) (n : nat) (v : Utils.TensorField A) :
  n = 2%nat \/ n = 3%nat ->
  voigt_vector n v ->
  exists M,
    Utils.tensor zero v = Ok M /\ symmetric_tensor n M /\ Utils.vec M = Ok v.
Proof.
  intros Hn (Ht & Hsd & Hsh & Hlen).
  destruct v as [tv sd sh fl]. simpl in Ht, Hsd, Hsh, Hlen. subst tv sh.
  destruct Hn as [-> | ->].
  - destruct_dims sd.
    destruct fl as [|a [|b [|c [|? ?]]]]; simpl in Hlen; try discriminate.
    eexists. split; [cbv; reflexivity|].
    split; [|reflexivity].
    repeat split.
    intros i j Hi Hj.
    destruct i as [|[|i]], j as [|[|j]]; try lia; reflexivity.
  - destruct_dims sd.
    destruct fl as [|a0 [|a1 [|a2 [|a3 [|a4 [|a5 [|? ?]]]]]]];
      simpl in Hlen; try discriminate.
    eexists. split; [cbv; reflexivity|].
    split; [|reflexivity].
    repeat split.
    intros i j Hi Hj.
    destruct i as [|[|[|i]]], j as [|[|[|j]]]; try lia; reflexivity.
Qed.

(** C6: in 2-D and in 3-D, [tensor (vec M) = M] for every symmetric square
    tensor field [M], with the components of [vec M] in the fixed Voigt order,
    and [vec (tensor v) = v] for every flattened vector [v] of [3n - 3]
    components; [vec] fails on a flattened vector and [tensor] on a square
    field. *)
Theorem vec_tensor_mutually_inverse {A : Type} (zero : A) (n : nat)
    (Hn : n = 2%nat \/ n = 3%nat) :
  (forall M : Utils.TensorField A, symmetric_tensor n M ->
     exists v, Utils.vec M = Ok v /\
               rmap (fun o => Utils.getitem2 M (fst o) (snd o)) (voigt_order n)
               = Ok (Utils.flat v) /\
               Utils.tensor zero v = Ok M) /\
  (forall v : Utils.TensorField A, voigt_vector n v ->
     exists M, Utils.tensor zero v = Ok M /\ Utils.vec M = Ok v) /\
  (forall v : Utils.TensorField A, voigt_vector n v ->
     Utils.vec v = Raise Exception_) /\
  (forall M : Utils.TensorField A, symmetric_tensor n M ->
     Utils.tensor zero M = Raise Exception_).
Proof.
  repeat split.
  - intros M HM.
    destruct (vec_of_symmetric zero Hn HM) as (v & Hv & _ & Ho & Ht).
    exists v. auto.
  - intros v Hv.
    destruct (tensor_of_voigt zero Hn Hv) as (M & HM & _ & Hvec).
    exists M. auto.
  - intros v (Ht & _ & Hsh & _). unfold Utils.vec. rewrite Ht, Hsh. simpl.
    destruct Hn as [-> | ->]; reflexivity.
  - intros M (Ht & _ & Hsh & _). unfold Utils.tensor. rewrite Ht, Hsh. simpl.
    rewrite Nat.eqb_refl. reflexivity.
Qed.

Lemma vec_tensor_mutually_inverse_witness :
  (2 = 2 \/ 2 = 3)%nat /\
  exists v, Utils.vec Inputs.sym2 = Ok v /\
            rmap (fun o => Utils.getitem2 Inputs.sym2 (fst o) (snd o))
                 (voigt_order 2)
            = Ok (Utils.flat v) /\
            Utils.tensor 0%nat v = Ok Inputs.sym2.
Proof.
  assert (Hn : (2 = 2 \/ 2 = 3)%nat) by (left; reflexivity).
  split; [exact Hn|].
  apply (proj1 (vec_tensor_mutually_inverse 0%nat Hn)).
  repeat split.
  intros i j Hi Hj.
  destruct i as [|[|i]], j as [|[|j]]; try lia; reflexivity.
Defined.

(** ** weight_fun *)

Lemma Rpower_1_base (y : R) : Rpower 1 y = 1%R.
Proof.
  unfold Rpower. rewrite ln_1, Rmult_0_r. apply exp_0.
Qed.

Lemma Q2R_inject_Z (z : Z) : Q2R (inject_Z z) = IZR z.
Proof.
  unfold Q2R. simpl. rewrite Rinv_1. apply Rmult_1_r.
Qed.

(** Without a weighting descriptor the weight is the constant 1. *)
Lemma weight_fun_None (model : Utils.GridModel) (src_coords : list (list Q)) :
  exists w, Utils.weight_fun None model src_coords = Ok w /\ forall x, w x = 1%R.
Proof.
  eexists. split; [reflexivity|]. intros x. reflexivity.
Qed.



Lemma getitem_nth {A : Type} (l : list A) (i : nat) (d : A) :
  (i < List.length l)%nat -> getitem l i = Ok (nth i l d).
Proof.
  intros H. unfold getitem.
  rewrite (nth_error_nth' l d H). reflexivity.
Qed.

Lemma rmap_map {A B : Type} (f : A -> result B) (g : A -> B) (l : list A) :
  (forall a, In a l -> f a = Ok (g a)) -> rmap f l = Ok (map g l).
Proof.
  induction l as [|a l IH]; intros H; [reflexivity|].
  simpl. rewrite (H a (or_introl eq_refl)). simpl.
  rewrite IH by (intros x Hx; apply H; right; exact Hx). reflexivity.
Qed.

Lemma isrc_at_value (n : nat) (model : Utils.GridModel) (row : list Q) (i : nat) :
  grid_of_dim n model row -> (i < n)%nat ->
  Utils.isrc_at model [row] i = Ok (isrc_value model row i).
Proof.
  intros (Hd & Hn & Hdims & Hsp & Hpad & Hrow & Hnz) Hi.
  unfold Utils.isrc_at.
  rewrite (getitem_nth (Utils.padsizes model) (0%Z, 0%Z)) by lia.
  cbn [rbind getitem nth_error].
  rewrite (getitem_nth row 0) by lia. cbn [rbind].
  rewrite (getitem_nth (Utils.spacing model) 0) by lia. cbn [rbind].
  assert (Hs : ~ nth i (Utils.spacing model) 0 == 0).
  { rewrite Forall_forall in Hnz. apply Hnz. apply nth_In. lia. }
  destruct (Qeq_bool (nth i (Utils.spacing model) 0) 0) eqn:E.
  - apply Qeq_bool_iff in E. contradiction.
  - reflexivity.
Qed.

Lemma Q2R_isrc_value (n : nat) (model : Utils.GridModel) (row : list Q) (i : nat) :
  grid_of_dim n model row -> (i < n)%nat ->
  Q2R (isrc_value model row i)
  = (IZR (fst (nth i (Utils.padsizes model) (0%Z, 0%Z)))
     + Q2R (nth i row 0%Q) / Q2R (nth i (Utils.spacing model) 0%Q))%R.
Proof.
  intros (Hd & Hn & Hdims & Hsp & Hpad & Hrow & Hnz) Hi.
  assert (Hs : ~ nth i (Utils.spacing model) 0 == 0).
  { rewrite Forall_forall in Hnz. apply Hnz. apply nth_In. lia. }
  unfold isrc_value. rewrite Q2R_plus, Q2R_div by exact Hs.
  rewrite Q2R_inject_Z. reflexivity.
Qed.

Lemma radius_from_sum (isrc : list Q) :
  forall (ds : list Utils.Dimension) (k : nat),
    (k + List.length ds <= List.length isrc)%nat ->
    exists r,
      Utils.radius_from isrc k ds = Ok r /\
      forall x,
        r x = fold_right Rplus 0%R
                (map (fun j => ((x (nth j ds EmptyString)
                                 - Q2R (nth (k + j) isrc 0%Q)) ^ 2)%R)
                     (seq 0 (List.length ds))).
Proof.
  induction ds as [|d ds IH]; intros k Hk.
  - eexists. split; [reflexivity|]. intros x. reflexivity.
  - simpl in Hk. destruct (IH (S k)) as (r & Hr & Hsum); [lia|].
    eexists. split.
    + cbn [Utils.radius_from]. rewrite (getitem_nth isrc 0) by lia.
      cbn [rbind]. rewrite Hr. cbn [rbind]. reflexivity.
    + intros x. cbn beta. rewrite Hsum.
      cbn [List.length seq map fold_right nth]. rewrite Nat.add_0_r.
      f_equal. rewrite <- seq_shift, map_map. f_equal.
      apply map_ext. intros j. cbn [nth]. rewrite Nat.add_succ_r. reflexivity.
Qed.

(** With the descriptor "srcfocus" the weight is the one of the
    specification over all spatial axes. *)
Lemma weight_fun_srcfocus (n : nat) (model : Utils.GridModel) (row : list Q)
    (delta : Q) :
  grid_of_dim n model row ->
  exists w,
    Utils.weight_fun (Some ("srcfocus"%string, delta)) model [row] = Ok w /\
    forall x, w x = Utils.spec_weight model row delta (Utils.all_axes model) x.
Proof.
  intros Hg. pose proof Hg as (Hd & Hn & Hdims & Hsp & Hpad & Hrow & Hnz).
  cbn [Utils.weight_fun fst snd]. 
  replace (String.eqb "srcfocus" "srcfocus") with true by reflexivity.
  unfold Utils.weight_srcfocus. cbn [Utils.w_dim_of rbind].
  rewrite (@rmap_map _ _ _ (isrc_value model row)).
  2:{ intros i Hi. unfold range in Hi. apply in_seq in Hi.
      apply (isrc_at_value Hg). lia. }
  cbn [rbind]. rewrite Hd.
  destruct (n =? 0)%nat eqn:E; [apply Nat.eqb_eq in E; lia|].
  cbn [rbind].
  destruct (@radius_from_sum (map (isrc_value model row) (range 0 n))
              (Utils.grid_dimensions model) 0%nat) as (r & Hr & Hsum).
  { unfold range. rewrite length_map, length_seq. lia. }
  rewrite Hr. cbn [rbind].
  eexists. split; [reflexivity|].
  intros x. cbn beta. unfold Utils.spec_weight, Utils.geometric_mean_spacing.
  rewrite Hd. f_equal. f_equal. f_equal.
  rewrite Hsum. unfold Utils.spec_distance2, Utils.all_axes.
  rewrite Hdims, Hd. unfold range. rewrite Nat.sub_0_r.
  f_equal. apply map_ext_in. intros j Hj. apply in_seq in Hj.
  cbn [Nat.add].
  rewrite (nth_indep _ 0 (isrc_value model row 0%nat))
    by (rewrite length_map, length_seq; lia).
  rewrite (map_nth (isrc_value model row)), seq_nth by lia.
  cbn [Nat.add]. rewrite (Q2R_isrc_value Hg) by lia. ring.
Qed.

(** With any other descriptor the weight pairs the depth index with the
    position of the source along the first axis. *)
Lemma weight_fun_depth_only (n : nat) (model : Utils.GridModel) (row : list Q)
    (name : string) (delta : Q) :
  grid_of_dim n model row ->
  String.eqb name "srcfocus" = false ->
  exists w,
    Utils.weight_fun (Some (name, delta)) model [row] = Ok w /\
    forall x,
      w x = (let c := Q2R delta / Utils.geometric_mean_spacing model in
             sqrt ((x (nth (n - 1) (Utils.grid_dimensions model) EmptyString)
                    - IZR (fst (nth 0 (Utils.padsizes model) (0%Z, 0%Z)))
                    - Q2R (nth 0 row 0%Q) / Q2R (nth 0 (Utils.spacing model) 0%Q)) ^ 2
                   + c ^ 2) / c)%R.
Proof.
  intros Hg Hname. pose proof Hg as (Hd & Hn & Hdims & Hsp & Hpad & Hrow & Hnz).
  cbn [Utils.weight_fun fst snd]. rewrite Hname.
  unfold Utils.weight_srcfocus, Utils.w_dim_of, getlast.
  assert (Hlast : exists d rest, rev (Utils.grid_dimensions model) = d :: rest /\
                   d = nth (n - 1) (Utils.grid_dimensions model) EmptyString).
  { destruct (rev (Utils.grid_dimensions model)) as [|d rest] eqn:E.
    - apply (f_equal (@List.length _)) in E. rewrite length_rev in E.
      simpl in E. lia.
    - exists d, rest. split; [reflexivity|].
      assert (E' : Utils.grid_dimensions model = rev rest ++ [d]).
      { rewrite <- (rev_involutive (Utils.grid_dimensions model)), E.
        reflexivity. }
      rewrite E'. rewrite E', length_app, length_rev in Hdims. simpl in Hdims.
      rewrite app_nth2 by (rewrite length_rev; lia).
      rewrite length_rev. replace (n - 1 - List.length rest)%nat with 0%nat by lia.
      reflexivity. }
  destruct Hlast as (d & rest & Hrev & Hdl). rewrite Hrev. cbn [rbind].
  rewrite (@rmap_map _ _ _ (isrc_value model row)).
  2:{ intros i Hi. unfold range in Hi. apply in_seq in Hi.
      apply (isrc_at_value Hg). lia. }
  cbn [rbind]. rewrite Hd.
  destruct (n =? 0)%nat eqn:E; [apply Nat.eqb_eq in E; lia|].
  cbn [rbind Utils.radius_from].
  rewrite (getitem_nth _ (isrc_value model row 0%nat))
    by (unfold range; rewrite length_map, length_seq; lia).
  cbn [rbind].
  eexists. split; [reflexivity|].
  intros x. cbn beta zeta. unfold Utils.geometric_mean_spacing. rewrite Hd.
  f_equal. f_equal. f_equal.
  unfold range. rewrite (map_nth (isrc_value model row)), seq_nth by lia.
  cbn [Nat.add]. rewrite (Q2R_isrc_value Hg) by lia. rewrite <- Hdl. ring.
Qed.

Lemma Q2R_one : Q2R 1 = 1%R.
Proof. unfold Q2R. simpl. lra. Qed.

Lemma Q2R_zero : Q2R 0 = 0%R.
Proof. unfold Q2R. simpl. lra. Qed.

Lemma geometric_mean_spacing_grid2 :
  Utils.geometric_mean_spacing Inputs.grid2 = 1%R.
Proof.
  unfold Utils.geometric_mean_spacing.
  replace (Utils.np_prod (Utils.spacing Inputs.grid2)) with (1:Q) by reflexivity.
  rewrite Q2R_one. apply Rpower_1_base.
Qed.

Lemma sqrt_over_unit (a : R) : (sqrt a / (1 / 1) = sqrt a)%R.
Proof. field. Qed.

(** C7, on a 2-D grid of unit spacing with the source at x = 0, z = 3 and a
    descriptor other than "srcfocus": at the grid point (0, 0) the weight is 1,
    the distance being taken between the depth index and the first coordinate
    of the source, where the distance along the depth axis gives sqrt 10. *)
Theorem weight_depth_uses_first_source_coordinate :
  exists w,
    Utils.weight_fun (Some ("depth"%string, 1)) Inputs.grid2 [Inputs.src_0_3]
    = Ok w /\
    w Inputs.origin = 1%R /\
    Utils.spec_weight Inputs.grid2 Inputs.src_0_3 1
      (Utils.depth_axis Inputs.grid2) Inputs.origin = sqrt 10 /\
    w Inputs.origin <>
    Utils.spec_weight Inputs.grid2 Inputs.src_0_3 1
      (Utils.depth_axis Inputs.grid2) Inputs.origin.
Proof.
  assert (Hspec : Utils.spec_weight Inputs.grid2 Inputs.src_0_3 1
                    (Utils.depth_axis Inputs.grid2) Inputs.origin = sqrt 10).
  { unfold Utils.spec_weight. rewrite geometric_mean_spacing_grid2.
    unfold Utils.spec_distance2, Inputs.origin. simpl.
    rewrite Q2R_one. rewrite sqrt_over_unit. f_equal.
    replace (Q2R 3) with 3%R by (unfold Q2R; simpl; lra). lra. }
  eexists. split; [reflexivity|].
  assert (Hcode :
    (fun x : Utils.Dimension -> R =>
       (sqrt ((x "z"%string - Q2R (inject_Z 0 + 0 / 1)) ^ 2 + 0
              + (Q2R 1 / Utils.geometric_mean_spacing Inputs.grid2) ^ 2)
        / (Q2R 1 / Utils.geometric_mean_spacing Inputs.grid2))%R)
      Inputs.origin = 1%R).
  { cbv beta. rewrite geometric_mean_spacing_grid2, Q2R_one.
    rewrite (Qeq_eqR (inject_Z 0 + 0 / 1) 0) by reflexivity.
    rewrite Q2R_zero, sqrt_over_unit. unfold Inputs.origin.
    replace ((0 - 0) ^ 2 + 0 + (1 / 1) ^ 2)%R with 1%R by lra.
    apply sqrt_1. }
  split; [exact Hcode|].
  split; [exact Hspec|].
  rewrite Hspec. intros Heq.
  pose proof (eq_trans (eq_sym Hcode) Heq) as H1.
  assert (H10 : (sqrt 10 * sqrt 10 = 10)%R) by (apply sqrt_sqrt; lra).
  rewrite <- H1 in H10. lra.
Qed.

(** ** geom_expr and src_rec *)

Module GeomProps.
Import GeomUtils.


Lemma rmap_ok {A B : Type} (f : A -> result B) (l : list A) :
  (forall a, In a l -> exists b, f a = Ok b) ->
  exists bs, rmap f l = Ok bs.
Proof.
  induction l as [|a l IH]; intros H.
  - exists []. reflexivity.
  - destruct (H a (or_introl eq_refl)) as [b Hb].
    destruct IH as [bs Hbs]; [intros x Hx; apply H; right; exact Hx|].
    exists (b :: bs). simpl. rewrite Hb. simpl. rewrite Hbs. reflexivity.
Qed.

Lemma getitem_ok {A : Type} (l : list A) (i : nat) :
  (i < List.length l)%nat -> exists a, getitem l i = Ok a.
Proof.
  intros H. unfold getitem.
  destruct (nth_error l i) eqn:E; [eauto|].
  apply nth_error_None in E. lia.
Qed.

Lemma diagonal_ok (name : string) (ndim : nat) (comps : list string) :
  List.length comps = (ndim * ndim)%nat ->
  exists d, diagonal (TensorTimeFunction name ndim comps) = Ok d.
Proof.
  intros Hlen. simpl. apply rmap_ok. intros i Hi.
  unfold range in Hi. apply in_seq in Hi.
  destruct (@getitem_ok _ comps (i * ndim + i)) as [c Hc]; [nia|].
  rewrite Hc. simpl. eauto.
Qed.

Lemma inject_diagonal_log (src : PointSource) (uds : list field) :
  forall (g : list equation) (s : list event),
  exists s' g',
    inject_diagonal src uds g s = (s', Ok g') /\
    filter is_interpolation s' = filter is_interpolation s /\
    filter is_alloc s' = filter is_alloc s.
Proof.
  induction uds as [|ud uds IH]; intros g s.
  - exists s, g. repeat split.
  - simpl. unfold bind at 1. unfold inject. unfold bind at 1. unfold emit, ret.
    cbv beta iota.
    destruct (IH (g ++ [Injection src (EForward (EObj ud)) (EMul (ESrc src) EDt)])
                 (s ++ [Built (Injection src (EForward (EObj ud)) (EMul (ESrc src) EDt))]))
      as (s' & g' & H & Hi & Ha).
    exists s', g'. split; [exact H|].
    rewrite Hi, Ha, !filter_app. simpl. rewrite !app_nil_r. split; reflexivity.
Qed.

Lemma set_data_fits (src : PointSource) (samples : list Q) :
  fits_buffer (src_ntime src) (Some (WArray samples)) = true ->
  exists data, set_data src samples = Ok (with_data src data).
Proof.
  unfold fits_buffer, set_data. intros H.
  destruct (List.length samples =? src_ntime src)%nat; [eauto|].
  cbn [orb] in H. rewrite H. eauto.
Qed.

(** [src_rec], once the time length and the name tag resolve and the wavelet
    fits the buffer of the source: what it allocates and what it returns. *)
Lemma src_rec_run (model : Model) (u : wavefield)
    (src_coords rec_coords : option coords) (wavelet : option wavelet_t)
    (nt : option nat) (n : nat) (namef : string) (s : list event) :
  nt_or_shape0 nt wavelet = Ok n ->
  (if is_elastic model then
     (t <- getitem (as_tuple u) 1 ;;
      c <- field_getitem t 0 ;;
      Ok (field_name c))%result
   else
     (f <- getitem (as_tuple u) 0 ;;
      Ok (field_name f))%result) = Ok namef ->
  (src_coords <> None -> fits_buffer n wavelet = true) ->
  exists src,
    src_rec model u src_coords rec_coords wavelet nt s
    = (s ++ match src_coords, wavelet with
            | Some _, Some (WSource _) => []
            | Some _, _ => [Alloc ("src" ++ namef)]
            | None, _ => []
            end
         ++ match rec_coords with
            | Some _ => [Alloc ("rcv" ++ namef)]
            | None => []
            end,
       Ok (src,
           option_map (fun rc => {| rcv_name := "rcv" ++ namef; rcv_ntime := n;
                                    rcv_coordinates := rc |}) rec_coords)) /\
    (src = None <-> src_coords = None).
Proof.
  intros Hn Hnf Hfit. unfold src_rec, bind, lift, ret. rewrite Hn, Hnf.
  destruct src_coords as [sc|].
  - specialize (Hfit ltac:(discriminate)).
    destruct wavelet as [[samples|ps]|].
    + destruct (@set_data_fits
                  {| src_name := "src" ++ namef; src_ntime := n;
                     src_coordinates := sc; src_data := repeat 0 n |}
                  samples Hfit) as [data Hd].
      unfold new_PointSource, bind, emit, ret. cbn [fst snd]. rewrite Hd.
      destruct rec_coords as [rc|]; unfold new_Receiver, bind, emit, ret;
        cbn [fst snd option_map]; rewrite <- ?app_assoc, ?app_nil_r;
        (eexists; split; [reflexivity | split; discriminate]).
    + destruct rec_coords as [rc|]; unfold new_Receiver, bind, emit, ret;
        cbn [fst snd option_map app]; rewrite ?app_nil_r;
        (eexists; split; [reflexivity | split; discriminate]).
    + unfold new_PointSource, bind, emit, ret. cbn [fst snd].
      destruct rec_coords as [rc|]; unfold new_Receiver, bind, emit, ret;
        cbn [fst snd option_map]; rewrite <- ?app_assoc, ?app_nil_r;
        (eexists; split; [reflexivity | split; discriminate]).
  - destruct rec_coords as [rc|]; unfold new_Receiver, bind, emit, ret;
      cbn [fst snd option_map app]; rewrite ?app_nil_r;
      (eexists; split; [reflexivity | split; reflexivity]).
Qed.

Lemma allocs_are_no_interpolations (s : list event) (a b : list event) :
  forallb is_alloc a = true -> forallb is_alloc b = true ->
  filter is_interpolation (s ++ a ++ b) = filter is_interpolation s.
Proof.
  intros Ha Hb.
  assert (H : forall l, forallb is_alloc l = true ->
                        filter is_interpolation l = []).
  { induction l as [|[name | q] l IH]; cbn; intros Hl;
      [reflexivity | apply IH; exact Hl | discriminate Hl]. }
  rewrite !filter_app, (H a Ha), (H b Hb), !app_nil_r. reflexivity.
Qed.

(** C2, amended: for an elastic model and its wavefield (v, tau), when the
    time length resolves to a positive number ([nt] positive, or a wavelet
    of at least one sample supplied) and the wavelet fits the buffer of the
    source when there are source coordinates (an array of as many samples as
    the time length, or of one), [geom_expr] with [rec_coords] supplied and
    [recv_coords] absent raises the exception of the missing receiver
    coordinates, and has built no interpolation. *)
Theorem geom_expr_elastic_requires_recv_coords
    (model : Model) (u : wavefield) (src_coords : option coords)
    (rec_coords : coords) (wavelet : option wavelet_t) (fw : bool)
    (nt : option nat) (n : nat) (s : list event) :
  is_elastic model = true ->
  elastic_wavefield u = true ->
  nt_or_shape0 nt wavelet = Ok n ->
  (0 < n)%nat ->
  (src_coords <> None -> fits_buffer n wavelet = true) ->
  exists s',
    geom_expr model u src_coords (Some rec_coords) wavelet fw nt None s
    = (s', Raise Exception_) /\
    filter is_interpolation s' = filter is_interpolation s.
Proof.
  intros He Hu Hn _ Hfit.
  destruct u as [f | [|v [|[|? ?|name ndim comps] fs]]]; try discriminate Hu.
  simpl in Hu. apply andb_true_iff in Hu. destruct Hu as [Hnd Hlen].
  apply Nat.ltb_lt in Hnd. apply Nat.eqb_eq in Hlen.
  destruct (@diagonal_ok name ndim comps Hlen) as [d Hd].
  destruct (@getitem_ok _ comps 0%nat) as [c0 Hc0]; [nia|].
  match goal with
  | |- context [geom_expr model ?uu] =>
      destruct (@src_rec_run model uu src_coords (Some rec_coords) wavelet nt
                  n c0 s Hn) as (src & Hrun & Hsrc);
        [ rewrite He; cbn [as_tuple getitem nth_error field_getitem rbind];
          fold (getitem comps 0); rewrite Hc0; reflexivity
        | exact Hfit | ]
  end.
  unfold geom_expr. unfold bind at 1. rewrite Hrun. cbn [fst snd option_map].
  rewrite He.
  destruct src as [src|].
  - unfold bind at 1. unfold bind at 1. unfold lift at 1.
    cbn [as_tuple getitem nth_error fst snd].
    unfold bind at 1. unfold lift at 1. rewrite Hd.
    match goal with
    | |- context [inject_diagonal ?src ?dd [] ?st] =>
        destruct (inject_diagonal_log src dd [] st) as (s' & g' & H & Hi & _);
        rewrite H
    end.
    exists s'. split; [reflexivity|]. rewrite Hi.
    apply allocs_are_no_interpolations;
      [destruct src_coords; [destruct wavelet as [[?|?]|]|]; reflexivity
      | reflexivity].
  - eexists. split; [reflexivity|].
    apply allocs_are_no_interpolations;
      [destruct src_coords; [destruct wavelet as [[?|?]|]|]; reflexivity
      | reflexivity].
Qed.

(** C10: when [nt] is absent or zero and no wavelet is supplied, [src_rec],
    and hence [geom_expr], fails while resolving the time length, in the state
    it was called in: no point set has been allocated; a supplied wavelet
    gives the time length. *)
Theorem src_rec_fails_without_time_length
    (model : Model) (u : wavefield) (src_coords rec_coords : option coords)
    (fw : bool) (nt : option nat) (recv_coords : option coords)
    (s : list event) :
  nt = None \/ nt = Some 0%nat ->
  src_rec model u src_coords rec_coords None nt s = (s, Raise AttributeError) /\
  geom_expr model u src_coords rec_coords None fw nt recv_coords s
  = (s, Raise AttributeError) /\
  forall w, nt_or_shape0 nt (Some w) = Ok (shape0 w).
Proof.
  intros [-> | ->]; repeat split.
Qed.

Ltac run_src_rec model u sc rc wavelet nt n namef s Hn Hfit :=
  let src := fresh "src" in
  let Hrun := fresh "Hrun" in
  let Hsrc := fresh "Hsrc" in
  destruct (@src_rec_run model u sc rc wavelet nt n namef s Hn eq_refl Hfit)
    as (src & Hrun & Hsrc);
  unfold geom_expr; unfold bind at 1; rewrite Hrun; clear Hrun;
  destruct src as [src|];
  [ try (destruct Hsrc as [_ Hsrc]; discriminate (Hsrc eq_refl))
  | try (destruct Hsrc as [Hsrc _]; discriminate (Hsrc eq_refl)) ].

(** C3, amended: for a non-elastic model with a wavefield of its kind (a
    field, or a tuple that starts with one; a tuple when the model is TTI),
    when the time length resolves to a positive number, [geom_expr] returns
    exactly the interpolation with only [rec_coords]; and, when the wavelet
    fits the buffer of the source (an array of as many samples as the time
    length, or of one), exactly the injection with only [src_coords], and the
    injection followed by the interpolation with both. *)
Theorem geom_expr_scalar_equations
    (model : Model) (u : wavefield) (sc rc : coords)
    (wavelet : option wavelet_t) (fw : bool) (nt : option nat) (n : nat)
    (recv_coords : option coords) (s : list event) :
  is_elastic model = false ->
  scalar_wavefield model u = true ->
  nt_or_shape0 nt wavelet = Ok n ->
  (0 < n)%nat ->
  (fits_buffer n wavelet = true ->
   exists s' src f e,
     geom_expr model u (Some sc) None wavelet fw nt recv_coords s
     = (s', Ok [Injection src f e])) /\
  (exists s' rcv e,
     geom_expr model u None (Some rc) wavelet fw nt recv_coords s
     = (s', Ok [Interpolation rcv e])) /\
  (fits_buffer n wavelet = true ->
   exists s' src f e rcv e',
     geom_expr model u (Some sc) (Some rc) wavelet fw nt recv_coords s
     = (s', Ok [Injection src f e; Interpolation rcv e'])).
Proof.
  intros He Hu Hn _.
  destruct model as [el tti gd]. cbn in He, Hu. subst el.
  assert (Hcases :
    (exists f, u = One f /\ tti = false) \/ (exists f fs, u = Many (f :: fs))).
  { destruct u as [f | [|f fs]]; try discriminate Hu.
    - left. exists f. split; [reflexivity|].
      destruct tti; [discriminate Hu | reflexivity].
    - right. eauto. }
  clear Hu.
  destruct Hcases as [(f & -> & ->) | (f & fs & ->)]; try destruct tti;
    (split; [intros Hfit | split; [| intros Hfit]]).
  all: match goal with
       | |- context [geom_expr ?m ?u (Some _) None] =>
           run_src_rec m u (Some sc) (@None coords) wavelet nt n (field_name f) s Hn
             (fun _ : Some sc <> None => Hfit);
           do 4 eexists; cbv; reflexivity
       | |- context [geom_expr ?m ?u None (Some _)] =>
           run_src_rec m u (@None coords) (Some rc) wavelet nt n (field_name f) s Hn
             (fun H : @None coords <> None => False_ind (fits_buffer n wavelet = true) (H eq_refl));
           do 3 eexists; cbv; reflexivity
       | |- context [geom_expr ?m ?u (Some _) (Some _)] =>
           run_src_rec m u (Some sc) (Some rc) wavelet nt n (field_name f) s Hn
             (fun _ : Some sc <> None => Hfit);
           do 6 eexists; cbv; reflexivity
       end.
Qed.

(** With neither [nt] nor a wavelet, the elastic call fails in [src_rec]
    with an attribute error, not with the exception of the missing receiver
    coordinates. *)
Lemma geom_expr_elastic_without_time_length :
  is_elastic Inputs.elastic_model = true /\
  elastic_wavefield Inputs.v_tau = true /\
  snd (geom_expr Inputs.elastic_model Inputs.v_tau None (Some Inputs.one_point)
         None true None None [])
  = Raise AttributeError /\
  snd (geom_expr Inputs.elastic_model Inputs.v_tau None (Some Inputs.one_point)
         None true None None [])
  <> Raise Exception_.
Proof.
  repeat split. discriminate.
Qed.

(** Called with [src_coords] only, and neither [nt] nor a wavelet,
    [geom_expr] returns no equation: it fails in [src_rec]. *)
Lemma geom_expr_source_only_without_time_length :
  is_elastic Inputs.acoustic_model = false /\
  snd (geom_expr Inputs.acoustic_model Inputs.pressure (Some Inputs.one_point)
         None None true None None [])
  = Raise AttributeError /\
  ~ (exists q,
       snd (geom_expr Inputs.acoustic_model Inputs.pressure
              (Some Inputs.one_point) None None true None None [])
       = Ok [q]).
Proof.
  repeat split. intros [q Hq]. discriminate Hq.
Qed.

(** A wavelet of 3 samples does not fit a source of [nt] = 5 rows: the copy
    into its buffer raises a value error once the source is allocated, and
    neither an equation nor the exception of the missing receiver coordinates
    comes out; with [nt] = 1 the same wavelet fails likewise, and a wavelet of
    one sample is repeated down the 5 rows. *)
Lemma geom_expr_wavelet_mismatch :
  fits_buffer 5 (Some Inputs.ricker) = false /\
  geom_expr Inputs.acoustic_model Inputs.pressure (Some Inputs.one_point) None
    (Some Inputs.ricker) true (Some 5%nat) None []
  = ([Alloc "srcu"], Raise ValueError) /\
  geom_expr Inputs.elastic_model Inputs.v_tau (Some Inputs.one_point)
    (Some Inputs.one_point) (Some Inputs.ricker) true (Some 5%nat) None []
  = ([Alloc "srctxx"], Raise ValueError) /\
  snd (src_rec Inputs.acoustic_model Inputs.pressure (Some Inputs.one_point)
         None (Some Inputs.ricker) (Some 1%nat) [])
  = Raise ValueError /\
  (exists src,
     snd (src_rec Inputs.acoustic_model Inputs.pressure
            (Some Inputs.one_point) None (Some (WArray [7])) (Some 5%nat) [])
     = Ok (Some src, None) /\
     src_data src = [7; 7; 7; 7; 7]).
Proof.
  repeat split. eexists. split; reflexivity.
Qed.

Lemma geom_expr_elastic_requires_recv_coords_witness :
  is_elastic Inputs.elastic_model = true /\
  elastic_wavefield Inputs.v_tau = true /\
  nt_or_shape0 (Some 3%nat) (Some Inputs.ricker) = Ok 3%nat /\
  fits_buffer 3 (Some Inputs.ricker) = true /\
  exists s',
    geom_expr Inputs.elastic_model Inputs.v_tau (Some Inputs.one_point)
      (Some Inputs.one_point) (Some Inputs.ricker) true (Some 3%nat) None []
    = (s', Raise Exception_) /\
    filter is_interpolation s' = filter is_interpolation [].
Proof.
  split; [reflexivity|]. split; [reflexivity|]. split; [reflexivity|].
  split; [reflexivity|].
  exact (@geom_expr_elastic_requires_recv_coords Inputs.elastic_model
           Inputs.v_tau (Some Inputs.one_point) Inputs.one_point
           (Some Inputs.ricker) true (Some 3%nat) 3 [] eq_refl eq_refl eq_refl
           (Nat.lt_0_succ 2) (fun _ => eq_refl)).
Defined.

Lemma geom_expr_scalar_equations_witness :
  is_elastic Inputs.acoustic_model = false /\
  scalar_wavefield Inputs.acoustic_model Inputs.pressure = true /\
  nt_or_shape0 (Some 3%nat) (Some Inputs.ricker) = Ok 3%nat /\
  fits_buffer 3 (Some Inputs.ricker) = true /\
  exists s' src f e rcv e',
    geom_expr Inputs.acoustic_model Inputs.pressure (Some Inputs.one_point)
      (Some Inputs.one_point) (Some Inputs.ricker) true (Some 3%nat) None []
    = (s', Ok [Injection src f e; Interpolation rcv e']).
Proof.
  split; [reflexivity|]. split; [reflexivity|]. split; [reflexivity|].
  split; [reflexivity|].
  exact (proj2 (proj2
    (@geom_expr_scalar_equations Inputs.acoustic_model Inputs.pressure
       Inputs.one_point Inputs.one_point (Some Inputs.ricker) true
       (Some 3%nat) 3 None [] eq_refl eq_refl eq_refl (Nat.lt_0_succ 2)))
    eq_refl).
Defined.

Lemma src_rec_fails_without_time_length_witness :
  (@None nat = None \/ @None nat = Some 0%nat) /\
  src_rec Inputs.acoustic_model Inputs.pressure (Some Inputs.one_point)
    (Some Inputs.one_point) None None []
  = ([], Raise AttributeError).
Proof.
  assert (H : @None nat = None \/ @None nat = Some 0%nat)
    by (left; reflexivity).
  split; [exact H|].
  apply (proj1
    (@src_rec_fails_without_time_length Inputs.acoustic_model Inputs.pressure
       (Some Inputs.one_point) (Some Inputs.one_point) true None None [] H)).
Defined.

End GeomProps.

(** ** J_adjoint *)

Module InterfaceProps.
Import Interface.

Section Frames.
Variable P : event -> Prop.

Lemma frames_ret {A : Type} (a : A) : frames P (ret a).
Proof. intros s. split; [reflexivity|]. exists []. rewrite app_nil_r. auto. Qed.

Lemma frames_raise {A : Type} (e : exn) : frames P (@raise state A e).
Proof. intros s. split; [reflexivity|]. exists []. rewrite app_nil_r. auto. Qed.

Lemma frames_lift {A : Type} (r : result A) : frames P (lift r).
Proof. intros s. split; [reflexivity|]. exists []. rewrite app_nil_r. auto. Qed.

Lemma frames_get_recin : frames P get_recin.
Proof. intros s. split; [reflexivity|]. exists []. rewrite app_nil_r. auto. Qed.

Lemma frames_emit (e : event) : P e -> frames P (emit e).
Proof. intros H s. split; [reflexivity|]. exists [e]. auto. Qed.

Lemma frames_bind {A B : Type} (m : M A) (k : A -> M B) :
  frames P m -> (forall a, frames P (k a)) -> frames P (bind m k).
Proof.
  intros Hm Hk s. unfold bind.
  destruct (Hm s) as (Hr & new & Hl & Hn).
  destruct (m s) as [s1 [a | e]]; simpl in *.
  - destruct (Hk a s1) as (Hr' & new' & Hl' & Hn').
    split; [congruence|].
    exists (new ++ new'). rewrite Hl', Hl, app_assoc. split; [reflexivity|].
    apply Forall_app. auto.
  - split; [exact Hr|]. exists new. auto.
Qed.

Lemma frames_if {A : Type} (b : bool) (m1 m2 : M A) :
  frames P m1 -> frames P m2 -> frames P (if b then m1 else m2).
Proof. destruct b; auto. Qed.
End Frames.

Ltac frames_step :=
  first [ apply frames_bind; [|intros ?]
        | apply frames_ret | apply frames_raise | apply frames_lift
        | apply frames_get_recin
        | apply frames_emit
        | apply frames_if
        | match goal with |- frames _ (match ?x with _ => _ end) => destruct x end ].


Lemma frames_weaken {A : Type} (P Q : event -> Prop) (m : M A) :
  (forall e, P e -> Q e) -> frames P m -> frames Q m.
Proof.
  intros H Hm s. destruct (Hm s) as (Hr & new & Hl & Hn).
  split; [exact Hr|]. exists new. split; [exact Hl|].
  eapply Forall_impl; eauto.
Qed.

Section Dispatcher.
Variable Model : Type.
Variable critical_dt : Model -> Q.
Variable forward : Model -> coords -> coords -> buf -> kwargs -> fwd_out.
Variable gradient : Model -> buf -> coords -> wavefield -> kwargs -> grad_out.
Variable revolve : grad_out -> option Z -> Z -> buf -> buf.

#[local] Abbreviation J_adjoint := (J_adjoint critical_dt forward gradient revolve).
#[local] Abbreviation J_adjoint_checkpointing :=
  (J_adjoint_checkpointing critical_dt forward gradient revolve).
#[local] Abbreviation J_adjoint_freq := (J_adjoint_freq critical_dt forward gradient).
#[local] Abbreviation J_adjoint_standard := (J_adjoint_standard critical_dt forward gradient).

Ltac frames_auto :=
  repeat frames_step; try (intros v Hv; cbn in Hv; congruence).

Lemma frames_checkpointing model sc w rc so res nc mm ro isic ws t_sub :
  frames (carries_order so)
    (J_adjoint_checkpointing model sc w rc so res nc mm ro isic ws t_sub).
Proof.
  unfold Interface.J_adjoint_checkpointing, call_forward, call_gradient.
  frames_auto.
Qed.

Lemma frames_freq model sc w rc so fl ro dft isic ws t_sub :
  frames (carries_order so)
    (J_adjoint_freq model sc w rc so fl true ro dft isic ws t_sub).
Proof.
  unfold Interface.J_adjoint_freq, call_forward, call_gradient. cbn [negb].
  frames_auto.
Qed.

Lemma frames_standard model sc w rc so ro isic ws t_sub :
  frames (carries_order so)
    (J_adjoint_standard model sc w rc so true ro isic ws t_sub).
Proof.
  unfold Interface.J_adjoint_standard, call_forward, call_gradient. cbn [negb].
  frames_auto.
Qed.

(** A strategy starts with its forward call. *)
Lemma starts_with_forward {A : Type} (P : event -> Prop) model sc rc w kw
    (k : fwd_out -> M A) (s : state) :
  (forall a, frames P (k a)) ->
  exists rest,
    log (fst (bind (call_forward forward model sc rc w kw) k s))
    = log s ++ CallForward kw :: rest.
Proof.
  intros Hk. unfold call_forward, bind, emit, ret. cbn.
  match goal with
  | |- context [k ?a ?st] => destruct (Hk a st) as (_ & new & Hl & _)
  end.
  exists new. rewrite Hl. cbn. rewrite <- app_assoc. reflexivity.
Qed.

(** C8: with [checkpointing] true, [J_adjoint] runs the checkpointing strategy
    with spatial order 8 whatever [space_order] it was given: its forward call,
    and every call to the propagator layer it makes, carries order 8; on the
    frequency and standard branches they carry the caller's order. *)
Theorem J_adjoint_checkpointing_order_8
    model sc w rc (space_order : Z) nc mm fl dft isic ws t_sub (s : state) :
  J_adjoint model sc w rc space_order true nc mm fl dft isic ws t_sub
  = J_adjoint_checkpointing model sc w rc 8 true nc mm false isic ws t_sub /\
  (exists kw rest,
     log (fst (J_adjoint model sc w rc space_order true nc mm fl dft isic ws
                 t_sub s))
     = log s ++ CallForward kw :: rest /\
     kwarg kw "space_order" = Some (VInt 8) /\
     Forall (carries_order 8) (CallForward kw :: rest)) /\
  (exists kw rest,
     log (fst (J_adjoint model sc w rc space_order false nc mm fl dft isic ws
                 t_sub s))
     = log s ++ CallForward kw :: rest /\
     kwarg kw "space_order" = Some (VInt space_order) /\
     Forall (carries_order space_order) (CallForward kw :: rest)).
Proof.
  split; [reflexivity|]. split.
  - pose proof (@frames_checkpointing model sc w rc 8%Z true nc mm false isic ws t_sub s)
      as (_ & new & Hl & Hn).
    cbn [Interface.J_adjoint].
    revert Hl. unfold Interface.J_adjoint_checkpointing at 1 2.
    match goal with
    | |- context [bind (call_forward _ _ _ _ _ ?kw) ?k] =>
        destruct (@starts_with_forward _ (fun _ => True) model sc rc w kw k s)
          as [rest Hrest]
    end.
    { intros a. unfold call_gradient. repeat frames_step; exact I. }
    intros Hl. eexists. exists rest. split; [exact Hrest|]. split; [reflexivity|].
    rewrite Hrest in Hl. apply app_inv_head in Hl. rewrite Hl. exact Hn.
  - cbn [Interface.J_adjoint]. destruct (0 <? Datatypes.length fl)%nat.
    + pose proof (@frames_freq model sc w rc space_order fl false dft isic ws t_sub s)
        as (_ & new & Hl & Hn).
      revert Hl. unfold Interface.J_adjoint_freq at 1 2.
      match goal with
      | |- context [bind (call_forward _ _ _ _ _ ?kw) ?k] =>
          destruct (@starts_with_forward _ (fun _ => True) model sc rc w kw k s)
            as [rest Hrest]
      end.
      { intros a. unfold call_gradient. cbn [negb]. repeat frames_step; exact I. }
      intros Hl. eexists. exists rest. split; [exact Hrest|]. split; [reflexivity|].
      rewrite Hrest in Hl. apply app_inv_head in Hl. rewrite Hl. exact Hn.
    + pose proof (@frames_standard model sc w rc space_order false isic ws t_sub s)
        as (_ & new & Hl & Hn).
      revert Hl. unfold Interface.J_adjoint_standard at 1 2.
      match goal with
      | |- context [bind (call_forward _ _ _ _ _ ?kw) ?k] =>
          destruct (@starts_with_forward _ (fun _ => True) model sc rc w kw k s)
            as [rest Hrest]
      end.
      { intros a. unfold call_gradient. cbn [negb]. repeat frames_step; exact I. }
      intros Hl. eexists. exists rest. split; [exact Hrest|]. split; [reflexivity|].
      rewrite Hrest in Hl. apply app_inv_head in Hl. rewrite Hl. exact Hn.
Qed.

(** C9: [J_adjoint] runs the selected strategy with [is_residual] true, and
    the caller's buffer [recin] is the same after the call as before it, as it
    is after each of the three strategies called with [is_residual] true. *)
Theorem J_adjoint_keeps_recin
    model sc w rc (space_order : Z) (checkpointing : bool) nc mm fl dft isic
    ws t_sub (s : state) :
  J_adjoint model sc w rc space_order checkpointing nc mm fl dft isic ws t_sub
  = (if checkpointing then
       J_adjoint_checkpointing model sc w rc 8 true nc mm false isic ws t_sub
     else if (0 <? List.length fl)%nat then
       J_adjoint_freq model sc w rc space_order fl true false dft isic ws t_sub
     else
       J_adjoint_standard model sc w rc space_order true false isic ws t_sub) /\
  recin (fst (J_adjoint model sc w rc space_order checkpointing nc mm fl dft
                isic ws t_sub s)) = recin s /\
  (forall so ro,
     recin (fst (J_adjoint_checkpointing model sc w rc so true nc mm ro isic
                   ws t_sub s)) = recin s) /\
  (forall so ro,
     recin (fst (J_adjoint_freq model sc w rc so fl true ro dft isic ws
                   t_sub s)) = recin s) /\
  (forall so ro,
     recin (fst (J_adjoint_standard model sc w rc so true ro isic ws
                   t_sub s)) = recin s).
Proof.
  split; [reflexivity|].
  assert (Hc : forall so ro,
    recin (fst (J_adjoint_checkpointing model sc w rc so true nc mm ro isic
                  ws t_sub s)) = recin s).
  { intros so ro. apply (frames_checkpointing model sc w rc so true nc mm ro isic ws t_sub s). }
  assert (Hf : forall so ro,
    recin (fst (J_adjoint_freq model sc w rc so fl true ro dft isic ws
                  t_sub s)) = recin s).
  { intros so ro. apply (frames_freq model sc w rc so fl ro dft isic ws t_sub s). }
  assert (Hs : forall so ro,
    recin (fst (J_adjoint_standard model sc w rc so true ro isic ws
                  t_sub s)) = recin s).
  { intros so ro. apply (frames_standard model sc w rc so ro isic ws t_sub s). }
  repeat split; auto.
  unfold Interface.J_adjoint.
  destruct checkpointing; [apply Hc|].
  destruct (0 <? Datatypes.length fl)%nat; [apply Hf | apply Hs].
Qed.

(** Called directly on observed data, the standard strategy overwrites the
    caller's buffer with the residual. *)
Lemma J_adjoint_standard_overwrites_recin
    model sc w rc so ro isic ws t_sub (s : state) :
  let simulated :=
    fwd_rec (forward model sc rc w
               [("save", VBool true); ("ws", VOptBuf ws);
                ("space_order", VInt so); ("t_sub", VInt t_sub)]%string) in
  List.length simulated = List.length (recin s) ->
  recin (fst (J_adjoint_standard model sc w rc so false ro isic ws t_sub s))
  = map (fun p => fst p - snd p) (combine simulated (recin s)).
Proof.
  intros simulated Hlen.
  unfold Interface.J_adjoint_standard, call_forward, call_gradient, bind, emit,
    ret, lift, get_recin, set_recin, buf_sub. cbn.
  fold simulated. apply Nat.eqb_eq in Hlen. rewrite Hlen.
  destruct ro; reflexivity.
Qed.

(** When the forward propagator returns a single field, with [maxmem]
    supplied and [n_checkpoints] absent, the revolver is built with
    [floor (maxmem_bytes / per_step_bytes)] checkpoints, where
    [per_step_bytes] is the saved element count times the element byte width. *)
Theorem checkpoints_from_maxmem
    model sc w rc so res (maxmem : Q) ro isic ws t_sub (s : state) (f : Field) :
  (forall kw, fwd_u (forward model sc rc w kw) = One f) ->
  (forall r kw, as_tuple (grad_v (gradient model r rc (One f) kw)) <> []) ->
  (0 < cp_size [f] * fitemsize f)%Z ->
  let maxmem_bytes := maxmem * inject_Z (10 ^ 6) in
  let per_step_bytes := (cp_size [f] * fitemsize f)%Z in
  In (NewRevolver (cp_size [f])
        (Some (Qfloor (maxmem_bytes / inject_Z per_step_bytes)))
        (Z.of_nat (List.length w) - 2))
     (log (fst (J_adjoint_checkpointing model sc w rc so res None (Some maxmem)
                  ro isic ws t_sub s))).
Proof.
  intros Hu Hv Hmem maxmem_bytes per_step_bytes.
  unfold Interface.J_adjoint_checkpointing, call_forward, call_gradient.
  unfold bind, emit, ret, lift, get_recin. cbn [fst snd log recin].
  rewrite !Hu. cbn [data_itemsize as_tuple getitem nth_error].
  unfold checkpoints_for.
  destruct (cp_size [f] * fitemsize f =? 0)%Z eqn:E;
    [apply Z.eqb_eq in E; lia|].
  match goal with
  | |- context [getitem (as_tuple (grad_v ?g)) 0] =>
      destruct (as_tuple (grad_v g)) as [|v0 vs] eqn:Ev;
      [exfalso; exact (Hv _ _ Ev)|]
  end.
  cbn [getitem nth_error].
  destruct res; cbn [fst snd log recin];
    repeat match goal with
           | |- context [match ?x with Ok _ => _ | Raise _ => _ end] =>
               destruct x; cbn [fst snd log recin]
           end;
    try destruct ro; cbn [fst snd log recin];
    repeat first [ apply in_or_app; right; left; reflexivity
                 | apply in_or_app; left ].
Qed.
End Dispatcher.

Lemma checkpoints_from_maxmem_witness :
  (forall kw, fwd_u (Inputs.forward tt [] Inputs.one_point [0; 1; 0] kw)
              = One Inputs.field_u) /\
  (forall r kw,
     as_tuple (grad_v (Inputs.gradient tt r Inputs.one_point
                         (One Inputs.field_u) kw)) <> []) /\
  (0 < cp_size [Inputs.field_u] * fitemsize Inputs.field_u)%Z /\
  In (NewRevolver 1000 (Some 250%Z) 1)
     (log (fst (J_adjoint_checkpointing (fun _ : unit => 1) Inputs.forward
                  Inputs.gradient Inputs.revolve tt [] [0; 1; 0]
                  Inputs.one_point 8 true None (Some 1) false false None 1
                  Inputs.caller))).
Proof.
  assert (Hu : forall kw,
    fwd_u (Inputs.forward tt [] Inputs.one_point [0; 1; 0] kw)
    = One Inputs.field_u) by (intros kw; reflexivity).
  assert (Hv : forall r kw,
    as_tuple (grad_v (Inputs.gradient tt r Inputs.one_point
                        (One Inputs.field_u) kw)) <> [])
    by (intros r kw; discriminate).
  assert (Hm : (0 < cp_size [Inputs.field_u] * fitemsize Inputs.field_u)%Z)
    by reflexivity.
  split; [exact Hu|]. split; [exact Hv|]. split; [exact Hm|].
  exact (@checkpoints_from_maxmem unit (fun _ => 1) Inputs.forward
           Inputs.gradient Inputs.revolve tt [] [0; 1; 0] Inputs.one_point 8
           true 1 false false None 1 Inputs.caller Inputs.field_u Hu Hv Hm).
Defined.

(** C5, at a propagator that returns a pair of fields (a TTI wavefield), with
    [maxmem] = 1 and no [n_checkpoints]: [floor (maxmem_bytes /
    per_step_bytes)] is [floor (10^6 / (2000 * 4)) = 125] for the two fields
    of 1000 saved elements of 4 bytes each, and the strategy stops at [u.data]
    with an attribute error, no revolver having been built. *)
Theorem checkpoints_from_maxmem_tuple_wavefield :
  as_tuple (fwd_u (MoreInputs.forward_pair tt [] Inputs.one_point [0; 1; 0] []))
  = [Inputs.field_u; Inputs.field_v] /\
  cp_size [Inputs.field_u; Inputs.field_v] = 2000%Z /\
  Qfloor (1 * inject_Z (10 ^ 6) / inject_Z (2000 * 4)) = 125%Z /\
  snd (J_adjoint_checkpointing (fun _ : unit => 1) MoreInputs.forward_pair
         Inputs.gradient Inputs.revolve tt [] [0; 1; 0] Inputs.one_point 8
         true None (Some 1) false false None 1 Inputs.caller)
  = Raise AttributeError /\
  forall cp n k,
    ~ In (NewRevolver cp n k)
         (log (fst (J_adjoint_checkpointing (fun _ : unit => 1)
                      MoreInputs.forward_pair Inputs.gradient Inputs.revolve
                      tt [] [0; 1; 0] Inputs.one_point 8 true None (Some 1)
                      false false None 1 Inputs.caller))).
Proof.
  split; [reflexivity|]. split; [reflexivity|]. split; [reflexivity|].
  split; [reflexivity|].
  intros cp n k H. cbn in H.
  repeat (destruct H as [H | H]; [discriminate H|]). exact H.
Qed.

End InterfaceProps.

(** * Further properties *)

(** ** The stiffness factory *)

Section Tables.
Variable f : nat -> nat -> Utils.entry.
Variable d : nat.

Let table : Utils.Matrix :=
  map (fun j => map (fun i => f i j) (range 1 d)) (range 1 d).

Lemma table_rows : List.length table = (d - 1)%nat.
Proof. unfold table, range. rewrite length_map, length_seq. reflexivity. Qed.

Lemma table_cols : Forall (fun row => List.length row = (d - 1)%nat) table.
Proof.
  unfold table. apply Forall_forall. intros row Hrow.
  apply in_map_iff in Hrow. destruct Hrow as (j & <- & _).
  unfold range. rewrite length_map, length_seq. reflexivity.
Qed.

Lemma table_row (r : nat) :
  (r < d - 1)%nat ->
  nth r table [] = map (fun i => f i (S r)) (range 1 d).
Proof.
  intros Hr. unfold table.
  rewrite (nth_indep _ [] ((fun j => map (fun i => f i j) (range 1 d)) 0%nat))
    by (unfold range; rewrite length_map, length_seq; exact Hr).
  rewrite (map_nth (fun j => map (fun i => f i j) (range 1 d))).
  cbn beta. f_equal. unfold range. rewrite seq_nth by exact Hr. reflexivity.
Qed.

Lemma table_entry (r c : nat) :
  (r < d - 1)%nat -> (c < d - 1)%nat ->
  entry_at table r c = f (S c) (S r).
Proof.
  intros Hr Hc. unfold entry_at. rewrite table_row by exact Hr.
  rewrite (nth_indep _ (Utils.Num 0) ((fun i => f i (S r)) 0%nat))
    by (unfold range; rewrite length_map, length_seq; exact Hc).
  rewrite (map_nth (fun i => f i (S r))).
  cbn beta. f_equal. unfold range. rewrite seq_nth by exact Hc. reflexivity.
Qed.

Lemma table_entry_outside (r c : nat) :
  (d - 1 <= r)%nat \/ (d - 1 <= c)%nat ->
  entry_at table r c = Utils.Num 0.
Proof.
  intros H. unfold entry_at.
  destruct (Nat.lt_ge_cases r (d - 1)) as [Hr | Hr].
  - destruct H as [H | H]; [lia|].
    rewrite table_row by exact Hr. apply nth_overflow.
    unfold range. rewrite length_map, length_seq. exact H.
  - rewrite (nth_overflow table) by (rewrite table_rows; exact Hr).
    destruct c; reflexivity.
Qed.

Lemma table_symmetric :
  (forall i j, f i j = f j i) -> symmetric_matrix table.
Proof.
  intros Hf r c.
  destruct (Nat.lt_ge_cases r (d - 1)) as [Hr | Hr];
    destruct (Nat.lt_ge_cases c (d - 1)) as [Hc | Hc].
  - rewrite !table_entry by assumption. apply Hf.
  - rewrite !table_entry_outside by auto. reflexivity.
  - rewrite !table_entry_outside by auto. reflexivity.
  - rewrite !table_entry_outside by auto. reflexivity.
Qed.
End Tables.

Lemma entry_at_map (g : Utils.entry -> Utils.entry) (m : Utils.Matrix) (i j : nat) :
  g (Utils.Num 0) = Utils.Num 0 ->
  entry_at (map (map g) m) i j = g (entry_at m i j).
Proof.
  intros Hg. unfold entry_at.
  change (@nil Utils.entry) with (map g []) at 1.
  rewrite (map_nth (map g)). rewrite <- Hg at 1. apply map_nth.
Qed.

Lemma subs_symmetric (m : Utils.Matrix) (dct : Utils.dict) :
  symmetric_matrix m -> symmetric_matrix (Utils.subs m dct).
Proof.
  intros Hm i j. unfold Utils.subs.
  rewrite !entry_at_map by reflexivity. rewrite Hm. reflexivity.
Qed.

Lemma subs_square (n : nat) (m : Utils.Matrix) (dct : Utils.dict) :
  square_of_size n m -> square_of_size n (Utils.subs m dct).
Proof.
  intros [Hr Hc]. unfold Utils.subs. split.
  - rewrite length_map. exact Hr.
  - apply Forall_map. eapply Forall_impl; [|exact Hc].
    intros row Hrow. cbn beta. rewrite length_map. exact Hrow.
Qed.

Lemma cij_comm (dim i j : nat) : Utils.cij dim i j = Utils.cij dim j i.
Proof. unfold Utils.cij. rewrite Nat.min_comm, Nat.max_comm. reflexivity. Qed.

Lemma matrix_init_symmetric (dim : nat) : symmetric_matrix (Utils._matrix_init dim).
Proof. apply table_symmetric. apply cij_comm. Qed.

Lemma table_square (f : nat -> nat -> Utils.entry) (dim : nat) :
  square_of_size (3 * dim - 3)
    (map (fun j => map (fun i => f i j) (range 1 (dim * 2 + dim - 2)))
         (range 1 (dim * 2 + dim - 2))).
Proof.
  split.
  - rewrite table_rows. lia.
  - eapply Forall_impl; [|apply table_cols]. intros row H. cbn beta in *. lia.
Qed.

Ltac stiffness_cases H :=
  unfold Utils.C_Matrix in H;
  repeat match type of H with
         | (if ?b then _ else _) = _ => destruct b
         end;
  inversion H; subst; clear H.

(** X1: the matrix [C_Matrix] returns, and every matrix attached to it, has
    [3 dim - 3] rows of [3 dim - 3] entries, whatever the parameterization. *)
Theorem stiffness_matrices_square
    (model : Utils.Model) (parameters : string) (M : Utils.StiffnessTensor) :
  Utils.C_Matrix model parameters = Ok M ->
  square_of_size (3 * Utils.dim model - 3) (Utils.mat M) /\
  forall name a, In (name, a) (Utils.attrs M) ->
                 square_of_size (3 * Utils.dim model - 3) a.
Proof.
  intros H. stiffness_cases H; (split; [apply subs_square, table_square|]);
    intros name a Ha; cbn in Ha;
    repeat (destruct Ha as [Ha | Ha]; [inversion Ha; subst; clear Ha|]);
    try contradiction;
    first [apply subs_square, table_square | apply table_square].
Qed.

(** X2: the matrix [C_Matrix] returns, and every matrix attached to it, is
    symmetric. *)
Theorem stiffness_matrices_symmetric
    (model : Utils.Model) (parameters : string) (M : Utils.StiffnessTensor) :
  Utils.C_Matrix model parameters = Ok M ->
  symmetric_matrix (Utils.mat M) /\
  forall name a, In (name, a) (Utils.attrs M) -> symmetric_matrix a.
Proof.
  assert (Hmm : forall i j : nat,
            (Nat.min i j, Nat.max i j) = (Nat.min j i, Nat.max j i)).
  { intros i j. rewrite Nat.min_comm, Nat.max_comm. reflexivity. }
  intros H. stiffness_cases H;
    (split; [apply subs_symmetric, matrix_init_symmetric|]);
    intros name a Ha; cbn in Ha;
    repeat (destruct Ha as [Ha | Ha]; [inversion Ha; subst; clear Ha|]);
    try contradiction;
    first [ apply subs_symmetric, matrix_init_symmetric
          | apply table_symmetric; intros i j;
            rewrite (Nat.min_comm i j), (Nat.max_comm i j); reflexivity ].
Qed.

Lemma stiffness_matrices_square_witness :
  Utils.C_Matrix (Inputs.elastic 3) "vp-vs-rho"
  = Ok (Utils.C_vp_vs_rho (Inputs.elastic 3)) /\
  square_of_size 6 (Utils.mat (Utils.C_vp_vs_rho (Inputs.elastic 3))).
Proof.
  split; [reflexivity|].
  exact (proj1 (@stiffness_matrices_square (Inputs.elastic 3) "vp-vs-rho"
                  (Utils.C_vp_vs_rho (Inputs.elastic 3)) eq_refl)).
Defined.

Lemma stiffness_matrices_symmetric_witness :
  Utils.C_Matrix (Inputs.elastic 3) "vp-vs-rho"
  = Ok (Utils.C_vp_vs_rho (Inputs.elastic 3)) /\
  symmetric_matrix (Utils.mat (Utils.C_vp_vs_rho (Inputs.elastic 3))).
Proof.
  split; [reflexivity|].
  exact (proj1 (@stiffness_matrices_symmetric (Inputs.elastic 3) "vp-vs-rho"
                  (Utils.C_vp_vs_rho (Inputs.elastic 3)) eq_refl)).
Defined.

Ltac stiffness_compute :=
  cbv - [Qplus Qmult Qdiv Qopp Qminus Qinv inject_Z Qeq].

Ltac entrywise :=
  repeat (apply Forall2_cons || apply Forall2_nil).

(** X3: in 2-D and 3-D the Lame stiffness matrix is [lam * dlam + mu * dmu],
    with the matrices attached to it as [dlam] and [dmu]. *)
Theorem lam_mu_stiffness_is_linear (model : Utils.Model) :
  Utils.dim model = 2%nat \/ Utils.dim model = 3%nat ->
  exists M c dlam dmu,
    Utils.C_Matrix model "lam-mu" = Ok M /\
    Utils.values (Utils.mat M) = Some c /\
    attr_values M "dlam" = Some dlam /\
    attr_values M "dmu" = Some dmu /\
    mat_eq c (mat_add (mat_scale (Utils.lam model) dlam)
                      (mat_scale (Utils.mu model) dmu)).
Proof.
  intros Hd. destruct model as [d vp vs irho lam mu Ip Is]. cbn in Hd.
  destruct Hd as [-> | ->];
    (do 4 eexists; split; [reflexivity|];
     split; [stiffness_compute; reflexivity|];
     split; [stiffness_compute; reflexivity|];
     split; [stiffness_compute; reflexivity|];
     stiffness_compute; entrywise; ring).
Qed.

(** X4: in 2-D and 3-D, for [irho] other than 0, the velocity-density
    stiffness matrix [C] is
    [rho * drho], and [2 * C = vp * dvp + vs * dvs], with the matrices attached
    to it as [drho], [dvp] and [dvs] ([rho = 1 / irho]). *)
Theorem vp_vs_rho_stiffness_is_homogeneous (model : Utils.Model) :
  Utils.dim model = 2%nat \/ Utils.dim model = 3%nat ->
  ~ Utils.irho model == 0 ->
  exists M c dvp dvs drho,
    Utils.C_Matrix model "vp-vs-rho" = Ok M /\
    Utils.values (Utils.mat M) = Some c /\
    attr_values M "dvp" = Some dvp /\
    attr_values M "dvs" = Some dvs /\
    attr_values M "drho" = Some drho /\
    mat_eq c (mat_scale (1 / Utils.irho model) drho) /\
    mat_eq (mat_scale 2 c)
           (mat_add (mat_scale (Utils.vp model) dvp)
                    (mat_scale (Utils.vs model) dvs)).
Proof.
  intros Hd _. destruct model as [d vp vs irho lam mu Ip Is]. cbn in Hd.
  destruct Hd as [-> | ->];
    (do 5 eexists; split; [reflexivity|];
     split; [stiffness_compute; reflexivity|];
     split; [stiffness_compute; reflexivity|];
     split; [stiffness_compute; reflexivity|];
     split; [stiffness_compute; reflexivity|];
     split; stiffness_compute; entrywise;
     generalize (1 / irho); intros rho; ring).
Qed.

(** X5: in 2-D and 3-D the impedance stiffness matrix is
    [Ip * dIp + Is * dIs], with the matrices attached to it as [dIp], [dIs]. *)
Theorem Ip_Is_stiffness_is_linear (model : Utils.Model) :
  Utils.dim model = 2%nat \/ Utils.dim model = 3%nat ->
  exists M c dIp dIs,
    Utils.C_Matrix model "Ip-Is-rho" = Ok M /\
    Utils.values (Utils.mat M) = Some c /\
    attr_values M "dIp" = Some dIp /\
    attr_values M "dIs" = Some dIs /\
    mat_eq c (mat_add (mat_scale (Utils.Ip model) dIp)
                      (mat_scale (Utils.Is model) dIs)).
Proof.
  intros Hd. destruct model as [d vp vs irho lam mu Ip Is]. cbn in Hd.
  destruct Hd as [-> | ->];
    (do 4 eexists; split; [reflexivity|];
     split; [stiffness_compute; reflexivity|];
     split; [stiffness_compute; reflexivity|];
     split; [stiffness_compute; reflexivity|];
     stiffness_compute; entrywise; ring).
Qed.

(** X6: in 2-D and 3-D, for [irho] other than 0, the three parameterizations
    give one stiffness matrix when the parameters of the model agree: [lam = rho vp^2 - 2 rho vs^2],
    [mu = rho vs^2], [Ip = rho vp], [Is = rho vs]. *)
Theorem parameterizations_agree (model : Utils.Model) :
  Utils.dim model = 2%nat \/ Utils.dim model = 3%nat ->
  ~ Utils.irho model == 0 ->
  let rho := 1 / Utils.irho model in
  Utils.lam model
  == rho * Utils.vp model * Utils.vp model
     - 2 * rho * Utils.vs model * Utils.vs model ->
  Utils.mu model == rho * Utils.vs model * Utils.vs model ->
  Utils.Ip model == rho * Utils.vp model ->
  Utils.Is model == rho * Utils.vs model ->
  exists Mv Ml Mi cv cl ci,
    Utils.C_Matrix model "vp-vs-rho" = Ok Mv /\
    Utils.C_Matrix model "lam-mu" = Ok Ml /\
    Utils.C_Matrix model "Ip-Is-rho" = Ok Mi /\
    Utils.values (Utils.mat Mv) = Some cv /\
    Utils.values (Utils.mat Ml) = Some cl /\
    Utils.values (Utils.mat Mi) = Some ci /\
    mat_eq cl cv /\ mat_eq ci cv.
Proof.
  intros Hd _ rho. subst rho.
  destruct model as [d vp vs irho lam mu Ip Is]. cbn in Hd |- *.
  intros Hlam Hmu HIp HIs.
  destruct Hd as [-> | ->];
    (do 6 eexists; split; [reflexivity|];
     split; [reflexivity|];
     split; [reflexivity|];
     split; [stiffness_compute; reflexivity|];
     split; [stiffness_compute; reflexivity|];
     split; [stiffness_compute; reflexivity|];
     split; stiffness_compute; entrywise;
     rewrite ?Hlam, ?Hmu, ?HIp, ?HIs;
     generalize (1 / irho); intros rho; ring).
Qed.

(** In 2-D the matrix attached as [inv] to the Lame stiffness matrix is its
    inverse only for [lam = 0]. *)
Lemma inverse_C_lam_2d (model : Utils.Model) :
  Utils.dim model = 2%nat ->
  ~ Utils.mu model == 0 ->
  ~ 3 * Utils.lam model + 2 * Utils.mu model == 0 ->
  exists p,
    Utils.inv_times model "lam-mu" = Ok (Some p) /\
    (mat_eq p (Utils.eye 3) <-> Utils.lam model == 0).
Proof.
  intros Hd Hmu Hk.
  destruct model as [d vp vs irho lam mu Ip Is]. cbn in Hd, Hmu, Hk |- *. subst d.
  assert (H3 : ~ 3 * lam * mu + 2 * mu * mu == 0).
  { intros H. apply Hk.
    assert (E : (3 * lam + 2 * mu) * mu == 0) by (rewrite <- H; ring).
    apply Qmult_integral in E. destruct E as [E | E]; [exact E | contradiction]. }
  assert (H6 : ~ 6 * lam * mu + 4 * mu * mu == 0).
  { intros H. apply H3.
    assert (E : 2 * (3 * lam * mu + 2 * mu * mu) == 0) by (rewrite <- H; ring).
    apply Qmult_integral in E. destruct E as [E | E]; [discriminate E | exact E]. }
  eexists. split; [stiffness_compute; reflexivity|].
  unfold mat_eq. stiffness_compute. split.
  - intros H. inversion H as [|r1 r1' t1 t1' Hrow _]; subst.
    inversion Hrow as [|e00 e00' t2 t2' _ Hrest]; subst.
    inversion Hrest as [|e01 e01' t3 t3' H01 _]; subst.
    assert (E : lam * lam == 0).
    { assert (E1 : lam * lam
                   == ((lam + mu) / (3 * lam * mu + 2 * mu * mu) * lam
                       + (- lam / (6 * lam * mu + 4 * mu * mu) * (lam + 2 * mu)
                          + (0 * 0 + 0)))
                      * (6 * lam * mu + 4 * mu * mu))
        by (field; split; assumption).
      rewrite E1, H01. ring. }
    apply Qmult_integral in E. destruct E; assumption.
  - intros Hl. entrywise; try rewrite Hl; field; auto.
Qed.

(** X7: for [mu] and [3 lam + 2 mu] other than 0, the matrix attached as [inv]
    to the Lame stiffness matrix is its inverse in 3-D; in 2-D it is its
    inverse exactly when [lam = 0]. *)
Theorem inverse_C_lam_by_dimension (model : Utils.Model) :
  ~ Utils.mu model == 0 ->
  ~ 3 * Utils.lam model + 2 * Utils.mu model == 0 ->
  (Utils.dim model = 3%nat ->
   exists p,
     Utils.inv_times model "lam-mu" = Ok (Some p) /\ mat_eq p (Utils.eye 6)) /\
  (Utils.dim model = 2%nat ->
   exists p,
     Utils.inv_times model "lam-mu" = Ok (Some p) /\
     (mat_eq p (Utils.eye 3) <-> Utils.lam model == 0)).
Proof.
  intros Hmu Hk. split; intros Hd.
  - apply inverse_C_lam_3d; assumption.
  - apply inverse_C_lam_2d; assumption.
Qed.

Lemma lam_mu_stiffness_is_linear_witness :
  (Utils.dim (Inputs.elastic 2) = 2 \/ Utils.dim (Inputs.elastic 2) = 3)%nat /\
  exists M c dlam dmu,
    Utils.C_Matrix (Inputs.elastic 2) "lam-mu" = Ok M /\
    Utils.values (Utils.mat M) = Some c /\
    attr_values M "dlam" = Some dlam /\
    attr_values M "dmu" = Some dmu /\
    mat_eq c (mat_add (mat_scale 2 dlam) (mat_scale 1 dmu)).
Proof.
  assert (H : (Utils.dim (Inputs.elastic 2) = 2
               \/ Utils.dim (Inputs.elastic 2) = 3)%nat) by (left; reflexivity).
  split; [exact H|].
  exact (@lam_mu_stiffness_is_linear (Inputs.elastic 2) H).
Defined.

Lemma vp_vs_rho_stiffness_is_homogeneous_witness :
  (Utils.dim (Inputs.elastic 3) = 2 \/ Utils.dim (Inputs.elastic 3) = 3)%nat /\
  ~ Utils.irho (Inputs.elastic 3) == 0 /\
  exists M c dvp dvs drho,
    Utils.C_Matrix (Inputs.elastic 3) "vp-vs-rho" = Ok M /\
    Utils.values (Utils.mat M) = Some c /\
    attr_values M "dvp" = Some dvp /\
    attr_values M "dvs" = Some dvs /\
    attr_values M "drho" = Some drho /\
    mat_eq c (mat_scale (1 / 1) drho) /\
    mat_eq (mat_scale 2 c) (mat_add (mat_scale 2 dvp) (mat_scale 1 dvs)).
Proof.
  assert (H : (Utils.dim (Inputs.elastic 3) = 2
               \/ Utils.dim (Inputs.elastic 3) = 3)%nat) by (right; reflexivity).
  assert (Hi : ~ Utils.irho (Inputs.elastic 3) == 0) by discriminate.
  split; [exact H|]. split; [exact Hi|].
  exact (@vp_vs_rho_stiffness_is_homogeneous (Inputs.elastic 3) H Hi).
Defined.

Lemma Ip_Is_stiffness_is_linear_witness :
  (Utils.dim (Inputs.elastic 3) = 2 \/ Utils.dim (Inputs.elastic 3) = 3)%nat /\
  exists M c dIp dIs,
    Utils.C_Matrix (Inputs.elastic 3) "Ip-Is-rho" = Ok M /\
    Utils.values (Utils.mat M) = Some c /\
    attr_values M "dIp" = Some dIp /\
    attr_values M "dIs" = Some dIs /\
    mat_eq c (mat_add (mat_scale 2 dIp) (mat_scale 1 dIs)).
Proof.
  assert (H : (Utils.dim (Inputs.elastic 3) = 2
               \/ Utils.dim (Inputs.elastic 3) = 3)%nat) by (right; reflexivity).
  split; [exact H|].
  exact (@Ip_Is_stiffness_is_linear (Inputs.elastic 3) H).
Defined.

Lemma parameterizations_agree_witness :
  (Utils.dim (Inputs.elastic 3) = 2 \/ Utils.dim (Inputs.elastic 3) = 3)%nat /\
  ~ Utils.irho (Inputs.elastic 3) == 0 /\
  exists Mv Ml Mi cv cl ci,
    Utils.C_Matrix (Inputs.elastic 3) "vp-vs-rho" = Ok Mv /\
    Utils.C_Matrix (Inputs.elastic 3) "lam-mu" = Ok Ml /\
    Utils.C_Matrix (Inputs.elastic 3) "Ip-Is-rho" = Ok Mi /\
    Utils.values (Utils.mat Mv) = Some cv /\
    Utils.values (Utils.mat Ml) = Some cl /\
    Utils.values (Utils.mat Mi) = Some ci /\
    mat_eq cl cv /\ mat_eq ci cv.
Proof.
  assert (H : (Utils.dim (Inputs.elastic 3) = 2
               \/ Utils.dim (Inputs.elastic 3) = 3)%nat) by (right; reflexivity).
  assert (Hi : ~ Utils.irho (Inputs.elastic 3) == 0) by discriminate.
  split; [exact H|]. split; [exact Hi|].
  exact (@parameterizations_agree (Inputs.elastic 3) H Hi
           eq_refl eq_refl eq_refl eq_refl).
Defined.

Lemma inverse_C_lam_by_dimension_witness :
  ~ Utils.mu (Inputs.elastic 3) == 0 /\
  ~ 3 * Utils.lam (Inputs.elastic 3) + 2 * Utils.mu (Inputs.elastic 3) == 0 /\
  exists p,
    Utils.inv_times (Inputs.elastic 3) "lam-mu" = Ok (Some p) /\
    mat_eq p (Utils.eye 6).
Proof.
  assert (H1 : ~ Utils.mu (Inputs.elastic 3) == 0) by discriminate.
  assert (H2 : ~ 3 * Utils.lam (Inputs.elastic 3)
                 + 2 * Utils.mu (Inputs.elastic 3) == 0) by discriminate.
  split; [exact H1|]. split; [exact H2|].
  exact (proj1 (@inverse_C_lam_by_dimension (Inputs.elastic 3) H1 H2) eq_refl).
Defined.

(** ** Step length and weights *)

Lemma step_nonneg (norm_r norm_Fty epsilon : Q) :
  0 <= epsilon -> epsilon < norm_r -> 0 < norm_Fty ->
  0 <= norm_r * (norm_r - epsilon) / norm_Fty.
Proof.
  intros He Hr Hf.
  assert (H0 : 0 < norm_r) by (eapply Qle_lt_trans; eauto).
  assert (Hd : 0 < norm_r - epsilon)
    by (unfold Qminus; rewrite <- Qlt_minus_iff; exact Hr).
  apply Qlt_le_weak. apply Qlt_shift_div_l; [exact Hf|].
  rewrite Qmult_0_l. apply Qmult_lt_0_compat; assumption.
Qed.

(** X8: for noise levels [0 <= epsilon <= epsilon'] the step length is never
    negative, and the larger noise level never gives the longer step. *)
Theorem compute_optalpha_bounds
    (norm_r norm_Fty epsilon epsilon' : Q) (comp_alpha : bool) :
  0 <= epsilon ->
  epsilon <= epsilon' ->
  0 <= Utils.compute_optalpha norm_r norm_Fty epsilon' comp_alpha /\
  Utils.compute_optalpha norm_r norm_Fty epsilon' comp_alpha
  <= Utils.compute_optalpha norm_r norm_Fty epsilon comp_alpha.
Proof.
  intros He Hee.
  assert (He' : 0 <= epsilon') by (eapply Qle_trans; eauto).
  unfold Utils.compute_optalpha.
  destruct comp_alpha; [|split; [discriminate | apply Qle_refl]].
  destruct (Utils.Qgtb norm_Fty 0) eqn:Ef;
    [|rewrite !andb_false_r; split; apply Qle_refl].
  apply Qgtb_true in Ef. rewrite !andb_true_r.
  destruct (Utils.Qgtb norm_r epsilon') eqn:E'.
  - apply Qgtb_true in E'.
    assert (E : epsilon < norm_r) by (eapply Qle_lt_trans; eauto).
    rewrite (proj2 (Qgtb_true norm_r epsilon) E).
    split; [apply step_nonneg; assumption|].
    assert (Hr : 0 <= norm_r)
      by (apply Qlt_le_weak; eapply Qle_lt_trans; eauto).
    assert (Hi : 0 <= / norm_Fty)
      by (apply Qlt_le_weak, Qinv_lt_0_compat; exact Ef).
    assert (Hd : 0 <= epsilon' - epsilon)
      by (unfold Qminus; rewrite <- Qle_minus_iff; exact Hee).
    apply Qle_minus_iff. unfold Qdiv.
    setoid_replace (norm_r * (norm_r - epsilon) * / norm_Fty
                    + - (norm_r * (norm_r - epsilon') * / norm_Fty))
      with (norm_r * / norm_Fty * (epsilon' - epsilon)) by ring.
    apply Qmult_le_0_compat; [apply Qmult_le_0_compat|]; assumption.
  - split; [apply Qle_refl|].
    destruct (Utils.Qgtb norm_r epsilon) eqn:E; [|apply Qle_refl].
    apply Qgtb_true in E. apply step_nonneg; assumption.
Qed.

Lemma sum_of_squares_nonneg {A : Type} (g : A -> R) (l : list A) :
  (0 <= fold_right Rplus 0 (map (fun a => g a ^ 2) l))%R.
Proof.
  induction l as [|a l IH]; cbn [map fold_right]; [lra|].
  pose proof (pow2_ge_0 (g a)). lra.
Qed.

Lemma focus_ratio_ge_1 (r c : R) :
  (0 <= r)%R -> (0 < c)%R -> (1 <= sqrt (r + c ^ 2) / c)%R.
Proof.
  intros Hr Hc.
  assert (Hs : (c <= sqrt (r + c ^ 2))%R).
  { rewrite <- (sqrt_pow2 c) at 1 by lra. apply sqrt_le_1_alt. lra. }
  apply (Rmult_le_reg_r c); [exact Hc|].
  unfold Rdiv. rewrite Rmult_assoc, Rinv_l by lra. lra.
Qed.

Lemma focus_ratio_at_0 (c : R) :
  (0 < c)%R -> (sqrt (0 + c ^ 2) / c = 1)%R.
Proof.
  intros Hc. rewrite Rplus_0_l, sqrt_pow2 by lra. field. lra.
Qed.

Lemma scaled_delta_pos (model : Utils.GridModel) (delta : Q) :
  0 < delta -> (0 < Q2R delta / Utils.geometric_mean_spacing model)%R.
Proof.
  intros Hd. apply Rdiv_lt_0_compat.
  - apply Qlt_Rlt in Hd. rewrite Q2R_zero in Hd. exact Hd.
  - unfold Utils.geometric_mean_spacing, Rpower. apply exp_pos.
Qed.

(** X9: on a grid of positive spacings, with a positive reference distance
    [delta], the weight of a
    descriptor is at least 1 at every grid point; with "srcfocus" it is 1 at
    the position of the source. *)
Theorem weight_fun_at_least_1 (n : nat) (model : Utils.GridModel)
    (row : list Q) (name : string) (delta : Q) :
  grid_of_dim n model row ->
  Forall (fun sp => 0 < sp) (Utils.spacing model) ->
  0 < delta ->
  exists w,
    Utils.weight_fun (Some (name, delta)) model [row] = Ok w /\
    (forall x, (1 <= w x)%R) /\
    (name = "srcfocus"%string ->
     forall x,
       (forall i, (i < n)%nat ->
          x (nth i (Utils.grid_dimensions model) EmptyString)
          = (IZR (fst (nth i (Utils.padsizes model) (0%Z, 0%Z)))
             + Q2R (nth i row 0%Q) / Q2R (nth i (Utils.spacing model) 0%Q))%R) ->
       w x = 1%R).
Proof.
  intros Hg _ Hd. pose proof (scaled_delta_pos model Hd) as Hc.
  destruct (String.eqb name "srcfocus") eqn:En.
  - apply String.eqb_eq in En. subst name.
    destruct (@weight_fun_srcfocus n model row delta Hg) as (w & Hw & Hx).
    exists w. split; [exact Hw|]. split.
    + intros x. rewrite Hx. unfold Utils.spec_weight.
      apply focus_ratio_ge_1; [|exact Hc].
      unfold Utils.spec_distance2. apply sum_of_squares_nonneg.
    + intros _ x Hat. rewrite Hx. unfold Utils.spec_weight.
      replace (Utils.spec_distance2 model row (Utils.all_axes model) x) with 0%R.
      * apply focus_ratio_at_0. exact Hc.
      * unfold Utils.spec_distance2, Utils.all_axes, range.
        destruct Hg as (Hgd & _). rewrite Hgd, Nat.sub_0_r.
        assert (Hall : forall l, (forall i, In i l -> (i < n)%nat) ->
          0%R = fold_right Rplus 0%R
                  (map (fun i =>
                     ((x (nth i (Utils.grid_dimensions model) EmptyString)
                       - IZR (fst (nth i (Utils.padsizes model) (0%Z, 0%Z)))
                       - Q2R (nth i row 0%Q)
                         / Q2R (nth i (Utils.spacing model) 0%Q)) ^ 2)%R) l)).
        { induction l as [|i l IH]; intros Hl; [reflexivity|].
          cbn [map fold_right]. rewrite <- IH by (intros j Hj; apply Hl; right; exact Hj).
          rewrite Hat by (apply Hl; left; reflexivity). ring. }
        apply Hall. intros i Hi. apply in_seq in Hi. lia.
  - destruct (@weight_fun_depth_only n model row name delta Hg En) as (w & Hw & Hx).
    exists w. split; [exact Hw|]. split.
    + intros x. rewrite Hx. cbv zeta.
      apply focus_ratio_ge_1; [apply pow2_ge_0 | exact Hc].
    + intros Hn. subst name. discriminate En.
Qed.

Lemma compute_optalpha_bounds_witness :
  0 <= 2 /\ 2 <= 3 /\
  0 <= Utils.compute_optalpha 5 10 3 true /\
  Utils.compute_optalpha 5 10 3 true <= Utils.compute_optalpha 5 10 2 true.
Proof.
  assert (H : (0:Q) <= 2) by discriminate.
  assert (H' : (2:Q) <= 3) by discriminate.
  split; [exact H|]. split; [exact H'|].
  exact (@compute_optalpha_bounds 5 10 2 3 true H H').
Defined.

Lemma grid2_of_dim : grid_of_dim 2 Inputs.grid2 Inputs.src_0_3.
Proof.
  repeat split; try lia.
  repeat constructor; discriminate.
Qed.

Lemma weight_fun_at_least_1_witness :
  grid_of_dim 2 Inputs.grid2 Inputs.src_0_3 /\
  Forall (fun sp => 0 < sp) (Utils.spacing Inputs.grid2) /\
  0 < 1 /\
  exists w,
    Utils.weight_fun (Some ("srcfocus"%string, 1)) Inputs.grid2 [Inputs.src_0_3]
    = Ok w /\
    forall x, (1 <= w x)%R.
Proof.
  assert (Hd : (0:Q) < 1) by reflexivity.
  assert (Hp : Forall (fun sp => 0 < sp) (Utils.spacing Inputs.grid2))
    by (repeat constructor).
  split; [exact grid2_of_dim|]. split; [exact Hp|]. split; [exact Hd|].
  destruct (@weight_fun_at_least_1 2 Inputs.grid2 Inputs.src_0_3
              "srcfocus" 1 grid2_of_dim Hp Hd) as (w & Hw & Hge & _).
  exists w. split; [exact Hw | exact Hge].
Defined.

(** ** fields_kwargs *)

Module FieldsKwargsProps.
Import FieldsKwargs.

Lemma lookup_setitem (d : kwdict) (k k' : string) (v : Field) :
  lookup (setitem d k v) k' = if String.eqb k' k then Some v else lookup d k'.
Proof.
  induction d as [|[k0 v0] d IH]; cbn [setitem lookup].
  - reflexivity.
  - destruct (String.eqb k k0) eqn:E; cbn [lookup].
    + apply String.eqb_eq in E. subst k0.
      destruct (String.eqb k' k); reflexivity.
    + rewrite IH. destruct (String.eqb k' k0) eqn:E0; [|reflexivity].
      apply String.eqb_eq in E0. subst k0.
      destruct (String.eqb k' k) eqn:E1; [|reflexivity].
      apply String.eqb_eq in E1. subst k'. rewrite String.eqb_refl in E.
      discriminate E.
Qed.

Lemma last_named_app (k : string) (l1 l2 : list Field) :
  last_named k (l1 ++ l2)
  = match last_named k l2 with
    | Some f => Some f
    | None => last_named k l1
    end.
Proof.
  unfold last_named. rewrite rev_app_distr.
  induction (rev l2) as [|f r IH]; cbn [app find]; [reflexivity|].
  destruct (String.eqb k (name f)); [reflexivity | exact IH].
Qed.

(** Inserting fields one after the other under their names. *)
Lemma lookup_insert_fields (fields : list Field) :
  forall (d : kwdict) (k : string),
    lookup (fold_left (fun acc f => setitem acc (name f) f) fields d) k
    = match last_named k fields with
      | Some f => Some f
      | None => lookup d k
      end.
Proof.
  induction fields as [|f fields IH] using rev_ind; intros d k.
  - reflexivity.
  - rewrite fold_left_app. cbn [fold_left]. rewrite lookup_setitem.
    rewrite last_named_app. unfold last_named at 1. cbn [rev app find].
    destruct (String.eqb k (name f)); [reflexivity | apply IH].
Qed.

(** Every key of a dictionary is the name of its value, and no key occurs
    twice. *)
Definition keyed_by_name (d : kwdict) : Prop :=
  NoDup (map fst d) /\ forall k v, In (k, v) d -> name v = k.

Lemma setitem_keys (d : kwdict) (k : string) (v : Field) :
  map fst (setitem d k v)
  = if existsb (String.eqb k) (map fst d) then map fst d else map fst d ++ [k].
Proof.
  induction d as [|[k0 v0] d IH]; cbn [setitem map existsb fst]; [reflexivity|].
  destruct (String.eqb k k0) eqn:E; cbn [orb map fst]; [reflexivity|].
  rewrite IH. destruct (existsb (String.eqb k) (map fst d)); reflexivity.
Qed.

Lemma setitem_keyed (d : kwdict) (v : Field) :
  keyed_by_name d -> keyed_by_name (setitem d (name v) v).
Proof.
  intros [Hnd Hkey]. split.
  - rewrite setitem_keys.
    destruct (existsb (String.eqb (name v)) (map fst d)) eqn:E; [exact Hnd|].
    apply NoDup_app; [exact Hnd | repeat constructor; intros [] |].
    + intros x Hx [<- | []].
      assert (Ex : existsb (String.eqb (name v)) (map fst d) = true)
        by (apply existsb_exists; exists (name v); split;
            [exact Hx | apply String.eqb_refl]).
      congruence.
  - intros k w Hin.
    assert (Hcases : forall d0, In (k, w) (setitem d0 (name v) v) ->
              In (k, w) d0 \/ (k, w) = (name v, v)).
    { induction d0 as [|[k0 v0] d0 IH]; cbn [setitem].
      - intros [H | []]. right. symmetry. exact H.
      - destruct (String.eqb (name v) k0) eqn:E.
        + apply String.eqb_eq in E. subst k0.
          intros [H | H]; [right; symmetry; exact H | left; right; exact H].
        + intros [H | H]; [left; left; exact H|].
          destruct (IH H) as [H' | H']; [left; right; exact H' | right; exact H']. }
    destruct (Hcases d Hin) as [H | H]; [apply (Hkey _ _ H)|].
    inversion H. reflexivity.
Qed.

Lemma dict_of_keyed (fields : list Field) (d : kwdict) :
  keyed_by_name d ->
  keyed_by_name (fold_left (fun acc f => setitem acc (name f) f) fields d).
Proof.
  revert d. induction fields as [|f fields IH]; intros d Hd; [exact Hd|].
  cbn [fold_left]. apply IH. apply setitem_keyed. exact Hd.
Qed.

Lemma update_as_fields (d d' : kwdict) :
  (forall k v, In (k, v) d' -> name v = k) ->
  update d d' = fold_left (fun acc f => setitem acc (name f) f) (map snd d') d.
Proof.
  unfold update. revert d.
  induction d' as [|[k v] d' IH]; intros d Hkey; [reflexivity|].
  cbn [fold_left map fst snd].
  pose proof (Hkey k v (or_introl eq_refl)) as E. subst k.
  apply IH. intros k' v' H. apply Hkey. right. exact H.
Qed.

Lemma last_named_name (k : string) (l : list Field) (f : Field) :
  last_named k l = Some f -> name f = k /\ In f l.
Proof.
  unfold last_named. intros H. apply find_some in H. destruct H as [Hin Hk].
  apply String.eqb_eq in Hk. split; [symmetry; exact Hk|].
  apply in_rev. exact Hin.
Qed.

Lemma keyed_empty : keyed_by_name [].
Proof. split; [constructor | intros k v []]. Qed.

(** In a dictionary keyed by name, the value under [k] is the only field of
    that name. *)
Lemma last_named_values (d : kwdict) (k : string) :
  keyed_by_name d -> last_named k (map snd d) = lookup d k.
Proof.
  induction d as [|[k0 v0] d IH]; intros [Hnd Hkey]; [reflexivity|].
  cbn [map snd lookup].
  change (v0 :: map snd d) with ([v0] ++ map snd d). rewrite last_named_app.
  assert (Hd : keyed_by_name d).
  { split; [inversion Hnd; assumption|].
    intros k' v' H. apply Hkey. right. exact H. }
  assert (Hv0 : name v0 = k0) by (apply Hkey; left; reflexivity).
  rewrite (IH Hd). unfold last_named. cbn [rev app find]. rewrite Hv0.
  destruct (String.eqb k k0) eqn:E.
  - apply String.eqb_eq in E.
    destruct (lookup d k) as [f|] eqn:El; [|reflexivity].
    exfalso. pose proof (IH Hd) as El'.
    apply last_named_name in El'. destruct El' as [Hn Hin].
    apply in_map_iff in Hin. destruct Hin as ([k' v'] & Hsnd & Hin').
    cbn in Hsnd. subst v'.
    assert (Hk' : name f = k') by (apply Hd; exact Hin').
    inversion Hnd as [|x l Hnot _]. apply Hnot.
    apply in_map_iff. exists (k', f). split; [|exact Hin'].
    cbn. congruence.
  - destruct (lookup d k); reflexivity.
Qed.

(** The dictionary of one argument, merged into [kw]: the fields the
    argument holds are inserted left to right. *)
Lemma step_as_fields :
  forall (field : pyarg) (kw : kwdict),
    keyed_by_name kw ->
    keyed_by_name (step kw field) /\
    forall k, lookup (step kw field) k
              = match last_named k (leaves_of field) with
                | Some f => Some f
                | None => lookup kw k
                end.
Proof.
  fix IH 1. intros field kw Hkw.
  destruct field as [|items|components|f].
  - split; [exact Hkw | intros k; reflexivity].
  - cbn [step leaves_of].
    assert (Hitems : forall (l : list pyarg) (d : kwdict),
              keyed_by_name d ->
              keyed_by_name (fold_left (fun kw a => step kw a) l d) /\
              forall k, lookup (fold_left (fun kw a => step kw a) l d) k
                        = match last_named k (flat_map leaves_of l) with
                          | Some f => Some f
                          | None => lookup d k
                          end).
    { fix IHl 1. intros l d Hd. destruct l as [|a l].
      - split; [exact Hd | intros k; reflexivity].
      - cbn [fold_left flat_map].
        destruct (IH a d Hd) as [Hka Hla].
        destruct (IHl l (step d a) Hka) as [Hkl Hll].
        split; [exact Hkl|]. intros k. rewrite Hll, last_named_app, Hla.
        destruct (last_named k (flat_map leaves_of l)); reflexivity. }
    destruct (Hitems items [] keyed_empty) as [Hki Hli].
    rewrite update_as_fields by apply Hki.
    split; [apply dict_of_keyed; exact Hkw|].
    intros k. rewrite lookup_insert_fields, (last_named_values k Hki), Hli.
    destruct (last_named k (flat_map leaves_of items)); reflexivity.
  - cbn [step leaves_of].
    assert (Hkc : keyed_by_name (dict_of components))
      by apply (dict_of_keyed components keyed_empty).
    rewrite update_as_fields by apply Hkc.
    split; [apply dict_of_keyed; exact Hkw|].
    intros k. rewrite lookup_insert_fields, (last_named_values k Hkc).
    unfold dict_of. rewrite lookup_insert_fields.
    destruct (last_named k components); reflexivity.
  - cbn [step leaves_of]. unfold update. cbn [fold_left fst snd].
    split; [apply setitem_keyed; exact Hkw|].
    intros k. rewrite lookup_setitem. unfold last_named. cbn [rev app find].
    destruct (String.eqb k (name f)); reflexivity.
Qed.

Lemma fields_kwargs_as_fields (args : list pyarg) :
  forall d : kwdict,
    keyed_by_name d ->
    keyed_by_name (fold_left (fun kw a => step kw a) args d) /\
    forall k, lookup (fold_left (fun kw a => step kw a) args d) k
              = match last_named k (leaves args) with
                | Some f => Some f
                | None => lookup d k
                end.
Proof.
  unfold leaves. induction args as [|a args IH]; intros d Hd.
  - split; [exact Hd | intros k; reflexivity].
  - cbn [fold_left flat_map].
    destruct (step_as_fields a Hd) as [Hka Hla].
    destruct (IH (step d a) Hka) as [Hkl Hll].
    split; [exact Hkl|]. intros k. rewrite Hll, last_named_app, Hla.
    destruct (last_named k (flat_map leaves_of args)); reflexivity.
Qed.

Lemma lookup_fields_kwargs (args : list pyarg) (k : string) :
  lookup (fields_kwargs args) k = last_named k (leaves args).
Proof.
  unfold fields_kwargs.
  rewrite (proj2 (fields_kwargs_as_fields args keyed_empty)).
  destruct (last_named k (leaves args)); reflexivity.
Qed.

(** X10: the entry of [fields_kwargs] under a name is the last field
    of that name among the fields the arguments hold, read left to right
    through any nesting of iterables and composite fields; [None] arguments
    add nothing. *)
Theorem fields_kwargs_lookup (args : list pyarg) (k : string) :
  lookup (fields_kwargs args) k = last_named k (leaves args).
Proof. exact (lookup_fields_kwargs args k). Qed.

(** X11: in the dictionary [fields_kwargs] returns no key occurs twice,
    every value is one of the fields of the arguments and sits under its own
    name, and every field of the arguments has its name among the keys. *)
Theorem fields_kwargs_keyed_by_name (args : list pyarg) :
  NoDup (map fst (fields_kwargs args)) /\
  (forall k f, In (k, f) (fields_kwargs args) -> name f = k /\ In f (leaves args)) /\
  (forall f, In f (leaves args) -> lookup (fields_kwargs args) (name f) <> None).
Proof.
  pose proof (proj1 (fields_kwargs_as_fields args keyed_empty)) as [Hnd Hkey].
  fold (fields_kwargs args) in Hnd, Hkey.
  split; [exact Hnd|]. split.
  - intros k f Hin. split; [apply Hkey; exact Hin|].
    assert (Hl : lookup (fields_kwargs args) k = Some f).
    { clear Hkey. revert Hnd Hin. generalize (fields_kwargs args).
      induction k0 as [|[k1 v1] d IH]; intros Hnd Hin; [destruct Hin|].
      cbn [lookup]. destruct Hin as [Hin | Hin].
      - inversion Hin. subst. rewrite String.eqb_refl. reflexivity.
      - destruct (String.eqb k k1) eqn:E.
        + apply String.eqb_eq in E. subst k1. exfalso.
          inversion Hnd as [|x l Hnot _]. apply Hnot.
          apply in_map_iff. exists (k, f). split; [reflexivity | exact Hin].
        + apply IH; [inversion Hnd; assumption | exact Hin]. }
    rewrite lookup_fields_kwargs in Hl. apply (last_named_name _ _ Hl).
  - intros f Hin. rewrite lookup_fields_kwargs. unfold last_named.
    intros Hnone.
    pose proof (find_none _ _ Hnone f (proj1 (in_rev _ _) Hin)) as Hf.
    cbn beta in Hf. rewrite String.eqb_refl in Hf. discriminate Hf.
Qed.

End FieldsKwargsProps.

(** ** D and S *)

Module OperatorsProps.
Import Operators.

(** X12: [D] gives the same result, or the same error, on a symmetric tensor
    field and on its flattened form: [D (vec M) = D M], in 2-D and 3-D. *)
Theorem D_of_vec (n : nat) (M : Utils.TensorField sym) :
  n = 2%nat \/ n = 3%nat ->
  symmetric_tensor n M ->
  exists v, Utils.vec M = Ok v /\ D v = D M.
Proof.
  intros Hn (Ht & Hsd & Hsh & Hlen & Hsym).
  destruct M as [tv sd sh fl]. simpl in Ht, Hsd, Hsh, Hlen. subst tv sh.
  destruct Hn as [-> | ->].
  - destruct_dims sd.
    destruct fl as [|a [|b [|c [|d [|? ?]]]]]; simpl in Hlen; try discriminate.
    pose proof (Hsym 0%nat 1%nat ltac:(lia) ltac:(lia)) as H01.
    cbv in H01. injection H01 as ->.
    eexists. split; [cbv; reflexivity|]. reflexivity.
  - destruct_dims sd.
    destruct fl as [|a0 [|a1 [|a2 [|a3 [|a4 [|a5 [|a6 [|a7 [|a8 [|? ?]]]]]]]]]];
      simpl in Hlen; try discriminate.
    pose proof (Hsym 0%nat 1%nat ltac:(lia) ltac:(lia)) as H01.
    pose proof (Hsym 0%nat 2%nat ltac:(lia) ltac:(lia)) as H02.
    pose proof (Hsym 1%nat 2%nat ltac:(lia) ltac:(lia)) as H12.
    cbv in H01, H02, H12.
    injection H01 as ->. injection H02 as ->. injection H12 as ->.
    eexists. split; [cbv; reflexivity|]. reflexivity.
Qed.

(** X13: for a vector field of [n] components without integer entries, in
    2-D and 3-D, [S] returns a flattened field of [3n - 3] components whose
    square form is symmetric, with the derivative of component [i] along axis
    [i] on the diagonal and the sum of the two cross derivatives elsewhere. *)
Theorem S_is_symmetric_gradient (n : nat) (v : VectorField) :
  n = 2%nat \/ n = 3%nat ->
  is_VectorValued v = true ->
  List.length (v_space_dimensions v) = n ->
  List.length (v_comps v) = n ->
  existsb is_Int (v_comps v) = false ->
  exists e E,
    S v = Ok e /\ voigt_vector n e /\
    Utils.tensor (Int 0) e = Ok E /\ symmetric_tensor n E /\
    forall i j, (i < n)%nat -> (j < n)%nat ->
                Utils.getitem2 E i j = Ok (strain v i j).
Proof.
  intros Hn Hv Hd Hc Hint.
  destruct v as [vv dims comps]. cbn in Hv, Hd, Hc, Hint. subst vv.
  destruct Hn as [-> | ->].
  - destruct dims as [|d0 [|d1 [|? ?]]]; try discriminate Hd.
    destruct comps as [|c0 [|c1 [|? ?]]]; try discriminate Hc.
    cbn in Hint. apply orb_false_iff in Hint. destruct Hint as [H0 Hint].
    apply orb_false_iff in Hint. destruct Hint as [H1 _].
    destruct c0; try discriminate H0; destruct c1; try discriminate H1;
      (do 2 eexists; split; [cbv; reflexivity|];
       split; [repeat split|]; split; [cbv; reflexivity|];
       split; [repeat split; intros i j Hi Hj;
               destruct i as [|[|i]], j as [|[|j]]; try lia; reflexivity|];
       intros i j Hi Hj;
       destruct i as [|[|i]], j as [|[|j]]; try lia; reflexivity).
  - destruct dims as [|d0 [|d1 [|d2 [|? ?]]]]; try discriminate Hd.
    destruct comps as [|c0 [|c1 [|c2 [|? ?]]]]; try discriminate Hc.
    cbn in Hint. apply orb_false_iff in Hint. destruct Hint as [H0 Hint].
    apply orb_false_iff in Hint. destruct Hint as [H1 Hint].
    apply orb_false_iff in Hint. destruct Hint as [H2 _].
    destruct c0; try discriminate H0; destruct c1; try discriminate H1;
      destruct c2; try discriminate H2;
      (do 2 eexists; split; [cbv; reflexivity|];
       split; [repeat split|]; split; [cbv; reflexivity|];
       split; [repeat split; intros i j Hi Hj;
               destruct i as [|[|[|i]]], j as [|[|[|j]]]; try lia; reflexivity|];
       intros i j Hi Hj;
       destruct i as [|[|[|i]]], j as [|[|[|j]]]; try lia; reflexivity).
Qed.

Lemma D_of_vec_witness :
  (2 = 2 \/ 2 = 3)%nat /\
  symmetric_tensor 2 MoreInputs.stress2 /\
  exists v, Utils.vec MoreInputs.stress2 = Ok v /\ D v = D MoreInputs.stress2.
Proof.
  assert (Hn : (2 = 2 \/ 2 = 3)%nat) by (left; reflexivity).
  assert (Hs : symmetric_tensor 2 MoreInputs.stress2).
  { repeat split. intros i j Hi Hj.
    destruct i as [|[|i]], j as [|[|j]]; try lia; reflexivity. }
  split; [exact Hn|]. split; [exact Hs|].
  exact (@D_of_vec 2 MoreInputs.stress2 Hn Hs).
Defined.

Lemma S_is_symmetric_gradient_witness :
  (2 = 2 \/ 2 = 3)%nat /\
  existsb is_Int (v_comps MoreInputs.velocity2) = false /\
  exists e E,
    S MoreInputs.velocity2 = Ok e /\ voigt_vector 2 e /\
    Utils.tensor (Int 0) e = Ok E /\ symmetric_tensor 2 E /\
    forall i j, (i < 2)%nat -> (j < 2)%nat ->
                Utils.getitem2 E i j = Ok (strain MoreInputs.velocity2 i j).
Proof.
  assert (Hn : (2 = 2 \/ 2 = 3)%nat) by (left; reflexivity).
  split; [exact Hn|]. split; [reflexivity|].
  exact (@S_is_symmetric_gradient 2 MoreInputs.velocity2 Hn
           eq_refl eq_refl eq_refl eq_refl).
Defined.

End OperatorsProps.

(** ** The geometry builder *)

Module GeomMore.
Import GeomUtils.
Import GeomProps.

Lemma inject_diagonal_run (src : PointSource) (uds : list field) :
  forall (g : list equation) (s : list event),
    let inj ud := Injection src (EForward (EObj ud)) (EMul (ESrc src) EDt) in
    inject_diagonal src uds g s
    = (s ++ map (fun ud => Built (inj ud)) uds, Ok (g ++ map inj uds)).
Proof.
  induction uds as [|ud uds IH]; intros g s inj.
  - cbn. rewrite !app_nil_r. reflexivity.
  - cbn [inject_diagonal]. unfold bind at 1. unfold inject. unfold bind at 1.
    unfold emit, ret. cbv beta iota. rewrite IH. cbn [map].
    rewrite <- !app_assoc. reflexivity.
Qed.

Lemma diagonal_entries (name : string) (ndim : nat) (comps : list string) :
  List.length comps = (ndim * ndim)%nat ->
  diagonal (TensorTimeFunction name ndim comps)
  = Ok (map (fun i => TimeFunction (nth (i * ndim + i) comps EmptyString))
            (range 0 ndim)).
Proof.
  intros Hlen. cbn [diagonal]. apply rmap_map. intros i Hi.
  unfold range in Hi. apply in_seq in Hi.
  rewrite (@getitem_nth _ comps (i * ndim + i) EmptyString) by nia.
  reflexivity.
Qed.

(** X14: for an elastic model with source, receiver and velocity receiver
    coordinates and a positive time length [nt], when the wavelet fits the
    buffer of the source, [geom_expr] returns, for the source and the primary
    receiver of [src_rec]: the injection of [src * dt] into the forward value
    of each diagonal entry of the stress tensor, in order; then the
    interpolations of the velocity components at "rec_vx", "rec_vz" (and
    "rec_vy" when the grid has 3 dimensions), receivers of [nt] samples on
    [recv_coords]; then the interpolation of the trace of the stress tensor at
    the primary receiver.  The velocity receivers are given [nt] as it was
    passed: with [nt] absent, and the time length taken from the wavelet, the
    call raises the type error of a receiver without a time length, and has
    built no interpolation. *)
Theorem geom_expr_elastic_equations
    (model : Model) (vname : string) (vcomps : list string) (tname : string)
    (ndim : nat) (comps : list string) (fs : list field)
    (sc rc recv : coords) (wavelet : option wavelet_t) (fw : bool)
    (n : nat) (s : list event) :
  is_elastic model = true ->
  (0 < ndim)%nat ->
  List.length comps = (ndim * ndim)%nat ->
  ((if (grid_dim model =? 3)%nat then 3 else 2) <= List.length vcomps)%nat ->
  (0 < n)%nat ->
  let u := Many (VectorTimeFunction vname vcomps
                 :: TensorTimeFunction tname ndim comps :: fs) in
  let tau_d := map (fun i => TimeFunction (nth (i * ndim + i) comps EmptyString))
                   (range 0 ndim) in
  let v_ k := EObj (TimeFunction (nth k vcomps EmptyString)) in
  let velocity name :=
    {| rcv_name := name; rcv_ntime := n; rcv_coordinates := recv |} in
  (fits_buffer n wavelet = true ->
   exists s1 src rcv s',
     src_rec model u (Some sc) (Some rc) wavelet (Some n) s
     = (s1, Ok (Some src, Some rcv)) /\
     rcv = {| rcv_name := "rcv" ++ nth 0 comps EmptyString; rcv_ntime := n;
              rcv_coordinates := rc |} /\
     geom_expr model u (Some sc) (Some rc) wavelet fw (Some n) (Some recv) s
     = (s', Ok (map (fun ud => Injection src (EForward (EObj ud))
                                 (EMul (ESrc src) EDt)) tau_d
                ++ [Interpolation (velocity "rec_vx"%string) (v_ 0%nat);
                    Interpolation (velocity "rec_vz"%string) (v_ 1%nat)]
                ++ (if (grid_dim model =? 3)%nat
                    then [Interpolation (velocity "rec_vy"%string) (v_ 2%nat)]
                    else [])
                ++ [Interpolation rcv (ESum (map EObj tau_d))]))) /\
  (forall w, (0 < shape0 w)%nat ->
   exists s',
     geom_expr model u (Some sc) (Some rc) (Some w) fw None (Some recv) s
     = (s', Raise TypeError) /\
     filter is_interpolation s' = filter is_interpolation s).
Proof.
  intros He Hnd Hlen Hv Hn u tau_d v_ velocity.
  pose proof (diagonal_entries tname ndim comps Hlen) as Hd. fold tau_d in Hd.
  assert (Hc0 : getitem comps 0 = Ok (nth 0 comps EmptyString))
    by (apply getitem_nth; nia).
  assert (Hnf : (if is_elastic model then
                   (t <- getitem (as_tuple u) 1 ;;
                    c <- field_getitem t 0 ;;
                    Ok (field_name c))%result
                 else
                   (f <- getitem (as_tuple u) 0 ;;
                    Ok (field_name f))%result) = Ok (nth 0 comps EmptyString)).
  { rewrite He. subst u. cbn [as_tuple getitem nth_error field_getitem rbind].
    fold (getitem comps 0). rewrite Hc0. reflexivity. }
  assert (Hv0 : getitem vcomps 0 = Ok (nth 0 vcomps EmptyString))
    by (apply getitem_nth; destruct (grid_dim model =? 3)%nat; lia).
  assert (Hv1 : getitem vcomps 1 = Ok (nth 1 vcomps EmptyString))
    by (apply getitem_nth; destruct (grid_dim model =? 3)%nat; lia).
  split.
  - intros Hfit.
    assert (Hnt : nt_or_shape0 (Some n) wavelet = Ok n)
      by (destruct n; [lia | reflexivity]).
    destruct (@src_rec_run model u (Some sc) (Some rc) wavelet (Some n) n
                (nth 0 comps EmptyString) s Hnt Hnf (fun _ => Hfit))
      as (src & Hrun & Hsrc).
    destruct src as [src|];
      [|destruct Hsrc as [Hsrc _]; discriminate (Hsrc eq_refl)].
    cbn [option_map] in Hrun.
    assert (Hv2 : (grid_dim model =? 3)%nat = true ->
                  getitem vcomps 2 = Ok (nth 2 vcomps EmptyString)).
    { intros Eg. rewrite Eg in Hv. apply getitem_nth. lia. }
    destruct (grid_dim model =? 3)%nat eqn:Eg;
      (eexists; exists src; eexists; eexists;
       split; [exact Hrun|]; split; [reflexivity|];
       unfold geom_expr; unfold bind at 1; rewrite Hrun; cbn [fst snd];
       rewrite He, ?Eg;
       unfold bind at 1; unfold bind at 1; unfold lift at 1;
       subst u; cbn [as_tuple getitem nth_error fst snd];
       unfold bind at 1; unfold lift at 1; rewrite Hd;
       rewrite inject_diagonal_run; cbn [app];
       unfold interpolate, new_Receiver, bind, emit, ret, lift;
       cbn [fst snd u_getitem getitem nth_error field_getitem trace rbind];
       fold (getitem vcomps 0); fold (getitem vcomps 1);
       fold (getitem vcomps 2);
       rewrite Hv0, Hv1, Hd, ?(Hv2 eq_refl);
       cbn [rbind fst snd app]; reflexivity).
  - intros w Hw.
    assert (Hnt : nt_or_shape0 None (Some w) = Ok (shape0 w)) by reflexivity.
    assert (Hfit : fits_buffer (shape0 w) (Some w) = true)
      by (destruct w as [samples | ps]; cbn; [rewrite Nat.eqb_refl|]; reflexivity).
    destruct (@src_rec_run model u (Some sc) (Some rc) (Some w) None (shape0 w)
                (nth 0 comps EmptyString) s Hnt Hnf (fun _ => Hfit))
      as (src & Hrun & Hsrc).
    destruct src as [src|];
      [|destruct Hsrc as [Hsrc _]; discriminate (Hsrc eq_refl)].
    cbn [option_map] in Hrun.
    unfold geom_expr. unfold bind at 1. rewrite Hrun. cbn [fst snd]. rewrite He.
    unfold bind at 1. unfold bind at 1. unfold lift at 1.
    subst u. cbn [as_tuple getitem nth_error fst snd].
    unfold bind at 1. unfold lift at 1. rewrite Hd.
    rewrite inject_diagonal_run. cbn [app].
    unfold new_Receiver, bind, raise. cbn [fst snd].
    eexists. split; [reflexivity|].
    rewrite !filter_app.
    assert (Hinj : forall l : list field,
              filter is_interpolation
                (map (fun ud => Built (Injection src (EForward (EObj ud))
                                         (EMul (ESrc src) EDt))) l) = []).
    { induction l as [|a l IH]; [reflexivity | exact IH]. }
    rewrite Hinj, app_nil_r.
    destruct w as [samples | ps]; cbn; rewrite ?app_nil_r; reflexivity.
Qed.

Lemma namef_resolves (model : Model) (u : wavefield) :
  fits model u = true ->
  exists namef,
    (if is_elastic model then
       (t <- getitem (as_tuple u) 1 ;;
        c <- field_getitem t 0 ;;
        Ok (field_name c))%result
     else
       (f <- getitem (as_tuple u) 0 ;;
        Ok (field_name f))%result) = Ok namef.
Proof.
  unfold fits. destruct (is_elastic model).
  - intros Hu.
    destruct u as [f | [|v [|[|? ?|name ndim comps] fs]]]; try discriminate Hu.
    simpl in Hu. apply andb_true_iff in Hu. destruct Hu as [Hnd Hlen].
    apply Nat.ltb_lt in Hnd. apply Nat.eqb_eq in Hlen.
    destruct comps as [|c0 comps]; [cbn in Hlen; nia|].
    eexists. reflexivity.
  - intros Hu. destruct u as [f | [|f fs]]; try discriminate Hu;
      eexists; reflexivity.
Qed.

(** X15: when the wavelet is a point source, [src_rec] returns that very
    source and allocates no source: one point set is allocated when
    [rec_coords] is given, none otherwise. *)
Theorem src_rec_reuses_point_source
    (model : Model) (u : wavefield) (sc : coords) (rec_coords : option coords)
    (ps : PointSource) (nt : option nat) (s : list event) :
  fits model u = true ->
  exists s' rcv,
    src_rec model u (Some sc) rec_coords (Some (WSource ps)) nt s
    = (s', Ok (Some ps, rcv)) /\
    List.length (filter is_alloc s')
    = (List.length (filter is_alloc s)
       + match rec_coords with Some _ => 1 | None => 0 end)%nat /\
    (rec_coords = None -> s' = s /\ rcv = None).
Proof.
  intros Hu. destruct (namef_resolves model u Hu) as [namef Hnf].
  assert (Hn : exists n, nt_or_shape0 nt (Some (WSource ps)) = Ok n)
    by (destruct nt as [[|k]|]; eexists; reflexivity).
  destruct Hn as [n Hn].
  unfold src_rec, bind, lift, ret. rewrite Hn, Hnf.
  destruct rec_coords as [rc|]; unfold new_Receiver, bind, emit, ret;
    cbn [fst snd].
  - do 2 eexists. split; [reflexivity|]. split; [|discriminate].
    rewrite filter_app, length_app. reflexivity.
  - do 2 eexists. split; [reflexivity|]. split; [lia | auto].
Qed.

(** X16: with neither source nor receiver coordinates [geom_expr] returns
    the empty list and leaves the state as it found it. *)
Theorem geom_expr_without_coordinates
    (model : Model) (u : wavefield) (wavelet : option wavelet_t) (fw : bool)
    (nt : option nat) (recv_coords : option coords) (s : list event) :
  fits model u = true ->
  (exists n, nt_or_shape0 nt wavelet = Ok n) ->
  geom_expr model u None None wavelet fw nt recv_coords s = (s, Ok []).
Proof.
  intros Hu [n Hn]. destruct (namef_resolves model u Hu) as [namef Hnf].
  unfold geom_expr, src_rec, bind, lift, ret. rewrite Hn, Hnf. reflexivity.
Qed.

Lemma geom_expr_elastic_equations_witness :
  is_elastic Inputs.elastic_model = true /\
  fits_buffer 3 (Some Inputs.ricker) = true /\
  exists s1 src rcv s',
    src_rec Inputs.elastic_model Inputs.v_tau (Some Inputs.one_point)
      (Some Inputs.one_point) (Some Inputs.ricker) (Some 3%nat) []
    = (s1, Ok (Some src, Some rcv)) /\
    rcv = {| rcv_name := "rcvtxx"; rcv_ntime := 3;
             rcv_coordinates := Inputs.one_point |} /\
    geom_expr Inputs.elastic_model Inputs.v_tau (Some Inputs.one_point)
      (Some Inputs.one_point) (Some Inputs.ricker) true (Some 3%nat)
      (Some Inputs.one_point) []
    = (s', Ok [ Injection src (EForward (EObj (TimeFunction "txx")))
                  (EMul (ESrc src) EDt);
                Injection src (EForward (EObj (TimeFunction "tzz")))
                  (EMul (ESrc src) EDt);
                Interpolation {| rcv_name := "rec_vx"; rcv_ntime := 3;
                                 rcv_coordinates := Inputs.one_point |}
                  (EObj (TimeFunction "vx"));
                Interpolation {| rcv_name := "rec_vz"; rcv_ntime := 3;
                                 rcv_coordinates := Inputs.one_point |}
                  (EObj (TimeFunction "vz"));
                Interpolation rcv
                  (ESum [EObj (TimeFunction "txx");
                         EObj (TimeFunction "tzz")]) ]).
Proof.
  split; [reflexivity|]. split; [reflexivity|].
  exact (proj1 (@geom_expr_elastic_equations Inputs.elastic_model "v"
                  ["vx"; "vz"]%string "tau" 2
                  ["txx"; "txz"; "txz"; "tzz"]%string []
                  Inputs.one_point Inputs.one_point Inputs.one_point
                  (Some Inputs.ricker) true 3 []
                  eq_refl (Nat.lt_0_succ 1) eq_refl (Nat.le_refl 2)
                  (Nat.lt_0_succ 2))
           eq_refl).
Defined.

Lemma src_rec_reuses_point_source_witness :
  fits Inputs.acoustic_model Inputs.pressure = true /\
  exists s' rcv,
    src_rec Inputs.acoustic_model Inputs.pressure (Some Inputs.one_point) None
      (Some (WSource MoreInputs.source3)) None []
    = (s', Ok (Some MoreInputs.source3, rcv)).
Proof.
  split; [reflexivity|].
  destruct (@src_rec_reuses_point_source Inputs.acoustic_model Inputs.pressure
              Inputs.one_point None MoreInputs.source3 None [] eq_refl)
    as (s' & rcv & H & _).
  exists s', rcv. exact H.
Defined.

Lemma geom_expr_without_coordinates_witness :
  fits Inputs.elastic_model Inputs.v_tau = true /\
  (exists n, nt_or_shape0 (Some 5%nat) None = Ok n) /\
  geom_expr Inputs.elastic_model Inputs.v_tau None None None true
    (Some 5%nat) None []
  = ([], Ok []).
Proof.
  assert (Hn : exists n, nt_or_shape0 (Some 5%nat) None = Ok n)
    by (exists 5%nat; reflexivity).
  split; [reflexivity|]. split; [exact Hn|].
  exact (@geom_expr_without_coordinates Inputs.elastic_model Inputs.v_tau None
           true (Some 5%nat) None [] eq_refl Hn).
Defined.

End GeomMore.

(** ** The gradient strategies *)

Module InterfaceMore.
Import Interface.
Import InterfaceProps.

Section MoreStrategies.
Variable Model : Type.
Variable critical_dt : Model -> Q.
Variable forward : Model -> coords -> coords -> buf -> kwargs -> fwd_out.
Variable gradient : Model -> buf -> coords -> wavefield -> kwargs -> grad_out.
Variable revolve : grad_out -> option Z -> Z -> buf -> buf.

#[local] Abbreviation J_adjoint_checkpointing :=
  (J_adjoint_checkpointing critical_dt forward gradient revolve).
#[local] Abbreviation J_adjoint_freq := (J_adjoint_freq critical_dt forward gradient).
#[local] Abbreviation J_adjoint_standard := (J_adjoint_standard critical_dt forward gradient).

(** X17: when [maxmem] is supplied, the [n_checkpoints] argument has no
    effect on the call; when it is not, the revolver is built with
    [n_checkpoints] as it was given. *)
Theorem checkpoint_count_choice
    model sc w rc so res (nc : option Z) ro isic ws t_sub (s : state)
    (u0 v0 : Field) (us vs : list Field) (u v : wavefield) :
  (forall kw, fwd_u (forward model sc rc w kw) = u) ->
  (forall r kw, grad_v (gradient model r rc u kw) = v) ->
  as_tuple u = u0 :: us ->
  as_tuple v = v0 :: vs ->
  (forall nc' maxmem,
     J_adjoint_checkpointing model sc w rc so res nc (Some maxmem) ro isic ws
       t_sub s
     = J_adjoint_checkpointing model sc w rc so res nc' (Some maxmem) ro isic
         ws t_sub s) /\
  In (NewRevolver (cp_size (u0 :: us)) nc (Z.of_nat (List.length w) - 2))
     (log (fst (J_adjoint_checkpointing model sc w rc so res nc None ro isic ws
                  t_sub s))).
Proof.
  intros Hu Hv Hus Hvs. split; [intros nc' maxmem; reflexivity|].
  unfold Interface.J_adjoint_checkpointing, call_forward, call_gradient.
  unfold bind, emit, ret, lift, get_recin. cbn [fst snd log recin].
  rewrite !Hu, !Hv, Hus, Hvs. cbn [getitem nth_error fst snd log recin].
  destruct res; cbn [fst snd log recin];
    repeat match goal with
           | |- context [match ?x with Ok _ => _ | Raise _ => _ end] =>
               destruct x; cbn [fst snd log recin]
           end;
    try destruct ro; cbn [fst snd log recin];
    repeat first [ apply in_or_app; right; left; reflexivity
                 | apply in_or_app; left ].
Qed.

(** X18: when the forward propagator returns a tuple of fields and [maxmem]
    is supplied, the checkpointing strategy raises the attribute error after
    the propagators were called and the receiver was created: no checkpoint
    operator and no revolver is built, and [recin] is as it was. *)
Theorem checkpointing_tuple_wavefield_with_maxmem
    model sc w rc so res nc (maxmem : Q) ro isic ws t_sub (s : state)
    (fs : list Field) :
  (forall kw, fwd_u (forward model sc rc w kw) = Many fs) ->
  exists kwf kwg,
    J_adjoint_checkpointing model sc w rc so res nc (Some maxmem) ro isic ws
      t_sub s
    = ({| recin := recin s;
          log := log s ++ [CallForward kwf; CallGradient (recin s) kwg;
                           NewReceiver "rec" (Z.of_nat (List.length w))] |},
       Raise AttributeError).
Proof.
  intros Hu.
  unfold Interface.J_adjoint_checkpointing, call_forward, call_gradient.
  unfold bind, emit, ret, lift, get_recin. cbn [fst snd log recin].
  rewrite !Hu. cbn [data_itemsize]. rewrite <- !app_assoc. cbn [app].
  do 2 eexists. reflexivity.
Qed.


End MoreStrategies.

Lemma checkpoint_count_choice_witness :
  (forall kw, fwd_u (Inputs.forward tt [] Inputs.one_point [0; 1; 0] kw)
              = One Inputs.field_u) /\
  In (NewRevolver 1000 (Some 7%Z) 1)
     (log (fst (J_adjoint_checkpointing (fun _ : unit => 1) Inputs.forward
                  Inputs.gradient Inputs.revolve tt [] [0; 1; 0]
                  Inputs.one_point 8 true (Some 7%Z) None false false None 1
                  Inputs.caller))).
Proof.
  assert (Hu : forall kw,
    fwd_u (Inputs.forward tt [] Inputs.one_point [0; 1; 0] kw)
    = One Inputs.field_u) by (intros kw; reflexivity).
  split; [exact Hu|].
  exact (proj2 (@checkpoint_count_choice unit (fun _ => 1) Inputs.forward
                  Inputs.gradient Inputs.revolve tt [] [0; 1; 0]
                  Inputs.one_point 8 true (Some 7%Z) false false None 1
                  Inputs.caller Inputs.field_u Inputs.field_v [] []
                  (One Inputs.field_u) (One Inputs.field_v)
                  Hu (fun _ _ => eq_refl) eq_refl eq_refl)).
Defined.

Lemma checkpointing_tuple_wavefield_with_maxmem_witness :
  (forall kw, fwd_u (MoreInputs.forward_pair tt [] Inputs.one_point [0; 1; 0] kw)
              = Many [Inputs.field_u; Inputs.field_v]) /\
  exists kwf kwg,
    J_adjoint_checkpointing (fun _ : unit => 1) MoreInputs.forward_pair
      Inputs.gradient Inputs.revolve tt [] [0; 1; 0] Inputs.one_point 8 true
      None (Some 1) false false None 1 Inputs.caller
    = ({| recin := [1; 2; 3];
          log := [CallForward kwf; CallGradient [1; 2; 3] kwg;
                  NewReceiver "rec" 3] |},
       Raise AttributeError).
Proof.
  assert (Hu : forall kw,
    fwd_u (MoreInputs.forward_pair tt [] Inputs.one_point [0; 1; 0] kw)
    = Many [Inputs.field_u; Inputs.field_v]) by (intros kw; reflexivity).
  split; [exact Hu|].
  exact (@checkpointing_tuple_wavefield_with_maxmem unit (fun _ => 1)
           MoreInputs.forward_pair Inputs.gradient Inputs.revolve tt []
           [0; 1; 0] Inputs.one_point 8 true None 1 false false None 1
           Inputs.caller [Inputs.field_u; Inputs.field_v] Hu).
Defined.



End InterfaceMore.
